(** * Fourier epicycle drawing: a shallow embedding of [main.py]

    The numerical and animation core of the program is embedded here:
    [Path] (the recorded stroke, its Fourier coefficients and its animated
    trace) and [FourierDrawing] (the collection of paths with the replay
    queue and the animation speed), together with the parts of the event
    loop of [main] that act on them.  Window management, drawing calls and
    file export are left out: they read the state and never write it.

    Python floats are IEEE binary64 numbers.  The arithmetic the program
    performs is gathered in the interface [Arith]; the instance
    [Binary64.binary64] interprets it with Rocq's primitive binary64 floats
    (the operations IEEE 754 fixes bit for bit) and takes the functions IEEE
    754 leaves to the implementation (numpy's [exp], [cos], [sin], [abs],
    [angle] and the complex product and quotient) as a parameter; the
    instance [Exact.exact] interprets it with real numbers. *)

From Stdlib Require Import ZArith List Bool Lia Permutation Sorted.
From Stdlib Require Import Floats.
From Stdlib Require Reals Lra.
Import ListNotations.

Set Implicit Arguments.

(** ** Python's integer helpers *)

(** [a // b]: Python's floor division ([Z.div] floors as well). *)
Definition py_floordiv (a b : Z) : Z := (a / b)%Z.

Fixpoint py_range_from (start : Z) (count : nat) : list Z :=
  match count with
  | O => []
  | S count' => start :: py_range_from (start + 1)%Z count'
  end.

(** [range(start, stop)]. *)
Definition py_range (start stop : Z) : list Z :=
  py_range_from start (Z.to_nat (stop - start)).

(** ** The arithmetic of the program *)

Class Arith : Type := {
  (** Python [float] and [numpy.float64] values *)
  flt : Type;
  (** Python [complex] and [numpy.complex128] values *)
  cpx : Type;
  (** the promotion of an [int] operand to [float] *)
  of_int : Z -> flt;
  (** the literal [0.1] *)
  lit_0_1 : flt;
  (** [math.pi] *)
  math_pi : flt;
  fadd : flt -> flt -> flt;
  fsub : flt -> flt -> flt;
  fmul : flt -> flt -> flt;
  fdiv : flt -> flt -> flt;
  (** [a < b] and [a <= b] *)
  fltb : flt -> flt -> bool;
  fleb : flt -> flt -> bool;
  (** [a == b] *)
  feqb : flt -> flt -> bool;
  (** [complex(re, im)] *)
  complex_ : flt -> flt -> cpx;
  (** unary minus, product and quotient of Python [complex] values *)
  cneg : cpx -> cpx;
  cmul : cpx -> cpx -> cpx;
  cdiv : cpx -> cpx -> cpx;
  (** sum, product and quotient of [numpy.complex128] values *)
  np_add : cpx -> cpx -> cpx;
  np_mul : cpx -> cpx -> cpx;
  np_div : cpx -> cpx -> cpx;
  (** [np.exp], [abs] / [np.abs], [np.angle], [np.cos], [np.sin] *)
  np_exp : cpx -> cpx;
  np_abs : cpx -> flt;
  np_angle : cpx -> flt;
  np_cos : flt -> flt;
  np_sin : flt -> flt
}.

(** ** Paths and the drawing *)

Section Core.

Context {A : Arith}.

(** Constants of the module. *)
Definition WIDTH : Z := 800.
Definition HEIGHT : Z := 600.
Definition DEFAULT_SPEED : flt := of_int 1.
Definition SPEED_INCREMENT : flt := lit_0_1.

(** An [int] operand and a [float] operand of a complex operation. *)
Definition c_of_flt (x : flt) : cpx := complex_ x (of_int 0).
Definition c_of_int (z : Z) : cpx := c_of_flt (of_int z).

(** The literal [2j]. *)
Definition lit_2j : cpx := complex_ (of_int 0) (of_int 2).

Record DrawPoint : Type := mkDrawPoint {
  pos : Z * Z;
  timestamp : flt
}.

Inductive PathState : Type := drawing | animating | complete.

Definition PathState_eqb (a b : PathState) : bool :=
  match a, b with
  | drawing, drawing | animating, animating | complete, complete => true
  | _, _ => false
  end.

Record Path : Type := mkPath {
  raw_points : list DrawPoint;
  epicycles : list (Z * cpx);
  animation_points : list (flt * flt);
  display_index : Z;
  state : PathState;
  time : flt
}.

(** [Path.__init__] *)
Definition new_Path : Path :=
  {| raw_points := []; epicycles := []; animation_points := [];
     display_index := 0; state := drawing; time := of_int 0 |}.

Definition set_raw_points (p : Path) (v : list DrawPoint) : Path :=
  {| raw_points := v; epicycles := epicycles p;
     animation_points := animation_points p;
     display_index := display_index p; state := state p; time := time p |}.

Definition set_epicycles (p : Path) (v : list (Z * cpx)) : Path :=
  {| raw_points := raw_points p; epicycles := v;
     animation_points := animation_points p;
     display_index := display_index p; state := state p; time := time p |}.

Definition set_animation_points (p : Path) (v : list (flt * flt)) : Path :=
  {| raw_points := raw_points p; epicycles := epicycles p;
     animation_points := v;
     display_index := display_index p; state := state p; time := time p |}.

Definition set_state (p : Path) (v : PathState) : Path :=
  {| raw_points := raw_points p; epicycles := epicycles p;
     animation_points := animation_points p;
     display_index := display_index p; state := v; time := time p |}.

Definition set_time (p : Path) (v : flt) : Path :=
  {| raw_points := raw_points p; epicycles := epicycles p;
     animation_points := animation_points p;
     display_index := display_index p; state := state p; time := v |}.

(** [Path.add_point]; [current_time] is the value [time.time()] returns. *)
Definition add_point (p : Path) (xy : Z * Z) (current_time : flt) : Path :=
  set_raw_points p (raw_points p ++ [mkDrawPoint xy current_time]).

(** *** [Path.calculate_fourier] *)

(** [p.pos[0]] and [p.pos[1]] *)
Definition pos_x (p : DrawPoint) : Z := fst (pos p).
Definition pos_y (p : DrawPoint) : Z := snd (pos p).

(** [complex(p.pos[0] - WIDTH/2, p.pos[1] - HEIGHT/2)] *)
Definition complex_point (p : DrawPoint) : cpx :=
  complex_ (fsub (of_int (pos_x p)) (fdiv (of_int WIDTH) (of_int 2)))
           (fsub (of_int (pos_y p)) (fdiv (of_int HEIGHT) (of_int 2))).

(** [np.exp(-2j * pi * n * k / N)] *)
Definition twiddle (n k N : Z) : cpx :=
  np_exp
    (cdiv (cmul (cmul (cmul (cneg lit_2j) (c_of_flt math_pi)) (c_of_int n))
                (c_of_int k))
          (c_of_int N)).

(** The inner loop [for k in range(N): c += complex_points[k] * ...]; the
    index [k] is below [len(complex_points)], so the lookup cannot fail. *)
Fixpoint sum_loop (complex_points : list cpx) (n N : Z) (ks : list Z)
    (c : cpx) : cpx :=
  match ks with
  | [] => c
  | k :: ks' =>
      sum_loop complex_points n N ks'
        (np_add c (np_mul (nth (Z.to_nat k) complex_points (c_of_int 0))
                          (twiddle n k N)))
  end.

(** The value of [c] after [c = c / N]. *)
Definition dft_coefficient (complex_points : list cpx) (n : Z) : cpx :=
  let N := Z.of_nat (length complex_points) in
  np_div (sum_loop complex_points n N (py_range 0 N) (c_of_int 0))
         (c_of_int N).

(** The test [abs(c) > 1]. *)
Definition above_threshold (c : cpx) : bool := fltb (of_int 1) (np_abs c).

(** The outer loop [for n in range(-N//2, N//2)], appending to
    [self.epicycles]. *)
Fixpoint fourier_loop (complex_points : list cpx) (ns : list Z)
    (acc : list (Z * cpx)) : list (Z * cpx) :=
  match ns with
  | [] => acc
  | n :: ns' =>
      let c := dft_coefficient complex_points n in
      fourier_loop complex_points ns'
        (if above_threshold c then acc ++ [(n, c)] else acc)
  end.

(** [range(-N//2, N//2)]: the unary minus binds tighter than [//]. *)
Definition freq_indices (N : Z) : list Z :=
  py_range (py_floordiv (- N) 2) (py_floordiv N 2).

(** [list.sort(key=..., reverse=...)].  CPython sorts stably in ascending
    order of the keys, comparing them with [<] only, and implements
    [reverse=True] by reversing the list before and after that sort.  The
    ascending sort is the insertion of each element, left to right, behind
    the elements that are not greater. *)
Fixpoint insort {T : Type} (key : T -> flt) (x : T) (l : list T) : list T :=
  match l with
  | [] => [x]
  | y :: l' =>
      if fltb (key x) (key y) then x :: y :: l' else y :: insort key x l'
  end.

Definition sort_ascending {T : Type} (key : T -> flt) (l : list T) : list T :=
  fold_left (fun acc x => insort key x acc) l [].

Definition list_sort {T : Type} (key : T -> flt) (reverse : bool)
    (l : list T) : list T :=
  if reverse then rev (sort_ascending key (rev l)) else sort_ascending key l.

(** The key [lambda x: abs(x[1])]. *)
Definition magnitude (x : Z * cpx) : flt := np_abs (snd x).

(** The list assigned to [self.epicycles] once the guard has passed. *)
Definition fourier_epicycles (points : list DrawPoint) : list (Z * cpx) :=
  let complex_points := map complex_point points in
  let N := Z.of_nat (length complex_points) in
  list_sort magnitude true
    (fourier_loop complex_points (freq_indices N) []).

Definition calculate_fourier (p : Path) : Path :=
  if (length (raw_points p) <? 2)%nat then p
  else set_epicycles p (fourier_epicycles (raw_points p)).

(** *** [Path.calculate_point] and [Path.draw_epicycles] *)

(** [WIDTH/2, HEIGHT/2] *)
Definition canvas_center : flt * flt :=
  (fdiv (of_int WIDTH) (of_int 2), fdiv (of_int HEIGHT) (of_int 2)).

(** [2 * pi * n * t + np.angle(c)] *)
Definition epicycle_angle (n : Z) (c : cpx) (t : flt) : flt :=
  fadd (fmul (fmul (fmul (of_int 2) math_pi) (of_int n)) t) (np_angle c).

(** The loop of [calculate_point] with its two accumulators. *)
Fixpoint point_loop (eps : list (Z * cpx)) (t : flt) (x y : flt)
    : flt * flt :=
  match eps with
  | [] => (x, y)
  | (n, c) :: eps' =>
      let radius := np_abs c in
      let angle := epicycle_angle n c t in
      point_loop eps' t (fadd x (fmul radius (np_cos angle)))
                        (fadd y (fmul radius (np_sin angle)))
  end.

Definition calculate_point (p : Path) (t : flt) : flt * flt :=
  point_loop (epicycles p) t (fst canvas_center) (snd canvas_center).

(** [draw_epicycles] without its drawing calls: the chain of centres. *)
Fixpoint chain_loop (eps : list (Z * cpx)) (t : flt) (center : flt * flt)
    : flt * flt :=
  match eps with
  | [] => center
  | (n, c) :: eps' =>
      let prev_center := center in
      let radius := np_abs c in
      let angle := epicycle_angle n c t in
      chain_loop eps' t
        (fadd (fst prev_center) (fmul radius (np_cos angle)),
         fadd (snd prev_center) (fmul radius (np_sin angle)))
  end.

Definition draw_epicycles (p : Path) (t : flt) : flt * flt :=
  chain_loop (epicycles p) t canvas_center.

(** *** [Path.animate] and [Path.complete_animation] *)

(** [(1.0 / len(self.raw_points)) * speed]; the division raises
    [ZeroDivisionError] on an empty point list. *)
Definition time_step (p : Path) (speed : flt) : option flt :=
  match raw_points p with
  | [] => None
  | _ :: _ =>
      Some (fmul (fdiv (of_int 1) (of_int (Z.of_nat (length (raw_points p)))))
                 speed)
  end.

(** [animate]: [None] stands for the exception above. *)
Definition animate (p : Path) (speed : flt) : option Path :=
  match state p with
  | animating =>
      let point := draw_epicycles p (time p) in
      let p1 := set_animation_points p (animation_points p ++ [point]) in
      match time_step p1 speed with
      | None => None
      | Some dt =>
          let p2 := set_time p1 (fadd (time p1) dt) in
          if fleb (of_int 1) (time p2)
          then Some (set_state (set_time p2 (of_int 0)) complete)
          else Some p2
      end
  | _ => Some p
  end.

Definition complete_animation (p : Path) : Path :=
  match state p with
  | animating => set_state p complete
  | _ => p
  end.

(** *** [FourierDrawing] *)

(** A [Path] object is held by one collection at a time ([paths],
    [completed_paths], [remaining_paths] or [current_path]); the lists hold
    the objects by value.  [remaining_paths] is created by the first replay
    and read only while [animating_all] is set; it is empty before. *)
Record FourierDrawing : Type := mkFourierDrawing {
  paths : list Path;
  current_path : option Path;
  show_help : bool;
  animating_all : bool;
  current_animation_index : Z;
  animation_speed : flt;
  completed_paths : list Path;
  show_original : bool;
  remaining_paths : list Path
}.

(** [FourierDrawing.__init__] *)
Definition new_FourierDrawing : FourierDrawing :=
  {| paths := []; current_path := None; show_help := false;
     animating_all := false; current_animation_index := 0;
     animation_speed := DEFAULT_SPEED; completed_paths := [];
     show_original := false; remaining_paths := [] |}.

Definition start_new_path (d : FourierDrawing) (clear_existing : bool)
    : FourierDrawing :=
  if clear_existing then
    {| paths := []; current_path := Some new_Path; show_help := show_help d;
       animating_all := false;
       current_animation_index := current_animation_index d;
       animation_speed := animation_speed d; completed_paths := [];
       show_original := show_original d;
       remaining_paths := remaining_paths d |}
  else
    {| paths := paths d; current_path := Some new_Path;
       show_help := show_help d; animating_all := animating_all d;
       current_animation_index := current_animation_index d;
       animation_speed := animation_speed d;
       completed_paths := completed_paths d;
       show_original := show_original d;
       remaining_paths := remaining_paths d |}.

Definition complete_all_animations (d : FourierDrawing) : FourierDrawing :=
  let paths1 := map complete_animation (paths d) in
  if animating_all d then
    let remaining1 := map complete_animation (remaining_paths d) in
    {| paths := paths1 ++ remaining1; current_path := current_path d;
       show_help := show_help d; animating_all := false;
       current_animation_index := current_animation_index d;
       animation_speed := animation_speed d;
       completed_paths := completed_paths d;
       show_original := show_original d; remaining_paths := [] |}
  else
    {| paths := paths1; current_path := current_path d;
       show_help := show_help d; animating_all := animating_all d;
       current_animation_index := current_animation_index d;
       animation_speed := animation_speed d;
       completed_paths := completed_paths d;
       show_original := show_original d;
       remaining_paths := remaining_paths d |}.

Definition set_paths_current (d : FourierDrawing) (ps : list Path)
    (cur : option Path) : FourierDrawing :=
  {| paths := ps; current_path := cur; show_help := show_help d;
     animating_all := animating_all d;
     current_animation_index := current_animation_index d;
     animation_speed := animation_speed d;
     completed_paths := completed_paths d;
     show_original := show_original d;
     remaining_paths := remaining_paths d |}.

Definition finish_current_path (d : FourierDrawing) : FourierDrawing :=
  match current_path d with
  | Some p =>
      if (1 <? length (raw_points p))%nat then
        set_paths_current d
          (paths d ++ [set_state (calculate_fourier p) animating]) None
      else set_paths_current d (paths d) None
  | None => set_paths_current d (paths d) None
  end.

(** *** The event loop of [main] *)

(** The three assignments that restart a path: [time = 0],
    [animation_points = []], [state = "animating"]. *)
Definition restart (p : Path) : Path :=
  set_state (set_animation_points (set_time p (of_int 0)) []) animating.

(** [K_BACKSPACE] / [K_DELETE] *)
Definition key_clear (d : FourierDrawing) : FourierDrawing :=
  {| paths := []; current_path := None; show_help := show_help d;
     animating_all := false;
     current_animation_index := current_animation_index d;
     animation_speed := animation_speed d; completed_paths := [];
     show_original := show_original d;
     remaining_paths := remaining_paths d |}.

(** [K_SPACE]: replay all paths in order. *)
Definition key_space (d : FourierDrawing) : FourierDrawing :=
  match paths d with
  | [] => d
  | first :: rest =>
      {| paths := [restart first]; current_path := current_path d;
         show_help := show_help d; animating_all := true;
         current_animation_index := 0;
         animation_speed := animation_speed d; completed_paths := [];
         show_original := show_original d; remaining_paths := rest |}
  end.

(** Python's [max(a, b)] and [min(a, b)]: the first argument is kept unless
    the second compares strictly greater (respectively smaller). *)
Definition py_max (a b : flt) : flt := if fltb a b then b else a.
Definition py_min (a b : flt) : flt := if fltb b a then b else a.

(** The new speed on [MOUSEWHEEL]:
    [min(1.0, max(0.1, animation_speed + event.y * SPEED_INCREMENT))]. *)
Definition adjust_speed (speed : flt) (y : Z) : flt :=
  py_min (of_int 1)
    (py_max lit_0_1 (fadd speed (fmul (of_int y) SPEED_INCREMENT))).

Definition mouse_wheel (d : FourierDrawing) (y : Z) : FourierDrawing :=
  {| paths := paths d; current_path := current_path d;
     show_help := show_help d; animating_all := animating_all d;
     current_animation_index := current_animation_index d;
     animation_speed := adjust_speed (animation_speed d) y;
     completed_paths := completed_paths d;
     show_original := show_original d;
     remaining_paths := remaining_paths d |}.

Definition any_animating (ps : list Path) : bool :=
  existsb (fun p => PathState_eqb (state p) animating) ps.

(** The loop [for path in drawing.paths] of the frame. *)
Fixpoint animate_paths (ps : list Path) (speed : flt) : option (list Path) :=
  match ps with
  | [] => Some []
  | p :: ps' =>
      match (match state p with
             | animating => animate p speed
             | _ => Some p
             end) with
      | None => None
      | Some p' =>
          match animate_paths ps' speed with
          | None => None
          | Some ps'' => Some (p' :: ps'')
          end
      end
  end.

(** The block "Handle sequential animation" of the frame. *)
Definition sequential_animation (d : FourierDrawing) : FourierDrawing :=
  if animating_all d then
    match paths d with
    | [] => d
    | current :: _ =>
        match state current with
        | complete =>
            let completed1 := completed_paths d ++ [current] in
            match remaining_paths d with
            | next_path :: remaining1 =>
                {| paths := [restart next_path];
                   current_path := current_path d;
                   show_help := show_help d; animating_all := true;
                   current_animation_index := current_animation_index d;
                   animation_speed := animation_speed d;
                   completed_paths := completed1;
                   show_original := show_original d;
                   remaining_paths := remaining1 |}
            | [] =>
                {| paths := completed1; current_path := current_path d;
                   show_help := show_help d; animating_all := false;
                   current_animation_index := current_animation_index d;
                   animation_speed := animation_speed d;
                   completed_paths := [];
                   show_original := show_original d;
                   remaining_paths := [] |}
            end
        | _ => d
        end
    end
  else d.

(** What one iteration of the loop does to the drawing after its events:
    every path of [paths] is stepped, then the replay queue is served. *)
Definition frame_update (d : FourierDrawing) : option FourierDrawing :=
  match animate_paths (paths d) (animation_speed d) with
  | None => None
  | Some ps =>
      Some (sequential_animation (set_paths_current d ps (current_path d)))
  end.

(** [n] iterations of the loop in which no event arrives and nothing is
    recorded ([drawing_active] is off or there is no current path): the
    frame part of an iteration, [n] times. *)
Fixpoint run_frames (n : nat) (d : FourierDrawing) : option FourierDrawing :=
  match n with
  | O => Some d
  | S n' =>
      match frame_update d with
      | None => None
      | Some d' => run_frames n' d'
      end
  end.

(** *** The events of [main] *)

Inductive Key : Type :=
  | K_ESCAPE | K_h | K_g | K_RETURN | K_BACKSPACE | K_DELETE | K_SPACE
  | K_other.

(** [on_help] tells whether [help_rect] is set and contains the click. *)
Inductive Event : Type :=
  | QUIT
  | KEYDOWN (key : Key)
  | MOUSEBUTTONDOWN (button : Z) (on_help : bool)
  | MOUSEBUTTONUP (button : Z)
  | MOUSEWHEEL (y : Z)
  | other_event.

(** The variables of [main]: [drawing], [running] and [drawing_active]. *)
Record MainState : Type := mkMainState {
  main_drawing : FourierDrawing;
  running : bool;
  drawing_active : bool
}.

Definition set_show_help (d : FourierDrawing) (v : bool) : FourierDrawing :=
  {| paths := paths d; current_path := current_path d; show_help := v;
     animating_all := animating_all d;
     current_animation_index := current_animation_index d;
     animation_speed := animation_speed d;
     completed_paths := completed_paths d;
     show_original := show_original d;
     remaining_paths := remaining_paths d |}.

Definition set_show_original (d : FourierDrawing) (v : bool)
    : FourierDrawing :=
  {| paths := paths d; current_path := current_path d;
     show_help := show_help d; animating_all := animating_all d;
     current_animation_index := current_animation_index d;
     animation_speed := animation_speed d;
     completed_paths := completed_paths d; show_original := v;
     remaining_paths := remaining_paths d |}.

(** The body of [for event in pygame.event.get()]. *)
Definition handle_event (s : MainState) (e : Event) : MainState :=
  let d := main_drawing s in
  match e with
  | QUIT => mkMainState d false (drawing_active s)
  | KEYDOWN K_ESCAPE => mkMainState d false (drawing_active s)
  | KEYDOWN K_h =>
      mkMainState (set_show_help d (negb (show_help d))) (running s)
        (drawing_active s)
  | KEYDOWN K_g =>
      mkMainState (set_show_original d (negb (show_original d))) (running s)
        (drawing_active s)
  | KEYDOWN K_RETURN => s
  | KEYDOWN K_BACKSPACE | KEYDOWN K_DELETE =>
      mkMainState (key_clear d) (running s) (drawing_active s)
  | KEYDOWN K_SPACE =>
      mkMainState (key_space d) (running s) (drawing_active s)
  | KEYDOWN K_other => s
  | MOUSEBUTTONDOWN button on_help =>
      if show_help d then
        if on_help
        then mkMainState (set_show_help d false) (running s)
               (drawing_active s)
        else s
      else if (button =? 1)%Z then
        mkMainState (start_new_path d true) (running s) true
      else if (button =? 3)%Z then
        if animating_all d || any_animating (paths d)
        then mkMainState (complete_all_animations d) (running s)
               (drawing_active s)
        else mkMainState (start_new_path d false) (running s) true
      else s
  | MOUSEBUTTONUP button =>
      if (button =? 1)%Z || (button =? 3)%Z
      then mkMainState (finish_current_path d) (running s) false
      else s
  | MOUSEWHEEL y => mkMainState (mouse_wheel d y) (running s) (drawing_active s)
  | other_event => s
  end.

(** The block [if drawing_active and drawing.current_path]; [mouse] is
    the value of [pygame.mouse.get_pos()] and [now] that of
    [time.time()]. *)
Definition record_mouse (s : MainState) (mouse : Z * Z) (now : flt)
    : MainState :=
  if drawing_active s then
    match current_path (main_drawing s) with
    | Some p =>
        mkMainState
          (set_paths_current (main_drawing s) (paths (main_drawing s))
             (Some (add_point p mouse now)))
          (running s) (drawing_active s)
    | None => s
    end
  else s.

(** One iteration of [while running]. *)
Definition main_iteration (s : MainState) (events : list Event)
    (mouse : Z * Z) (now : flt) : option MainState :=
  let s1 := record_mouse (fold_left handle_event events s) mouse now in
  match frame_update (main_drawing s1) with
  | None => None
  | Some d => Some (mkMainState d (running s1) (drawing_active s1))
  end.

(** The state [main] starts from. *)
Definition main_start : MainState :=
  mkMainState new_FourierDrawing true false.

End Core.

(** ** The binary64 interpretation *)

Module Binary64.

Local Open Scope float_scope.

(** The functions whose results IEEE 754 does not fix: they are those of
    the C library and of numpy the program runs on. *)
Record Libm : Type := mkLibm {
  libm_cmul : float * float -> float * float -> float * float;
  libm_cdiv : float * float -> float * float -> float * float;
  libm_np_mul : float * float -> float * float -> float * float;
  libm_np_div : float * float -> float * float -> float * float;
  libm_exp : float * float -> float * float;
  libm_abs : float * float -> float;
  libm_angle : float * float -> float;
  libm_cos : float -> float;
  libm_sin : float -> float
}.

(** The correctly rounded conversion of an integer (exact below [2^53]). *)
Definition float_of_int (z : Z) : float :=
  SF2Prim (binary_normalize prec emax z 0 false).

#[export] Instance binary64 (L : Libm) : Arith := {|
  flt := float;
  cpx := float * float;
  of_int := float_of_int;
  lit_0_1 := 0x1.999999999999ap-4;
  math_pi := 0x1.921fb54442d18p+1;
  fadd := PrimFloat.add;
  fsub := PrimFloat.sub;
  fmul := PrimFloat.mul;
  fdiv := PrimFloat.div;
  fltb := PrimFloat.ltb;
  fleb := PrimFloat.leb;
  feqb := PrimFloat.eqb;
  complex_ := fun re im => (re, im);
  cneg := fun z => (- fst z, - snd z);
  cmul := libm_cmul L;
  cdiv := libm_cdiv L;
  np_add := fun z w => (fst z + fst w, snd z + snd w);
  np_mul := libm_np_mul L;
  np_div := libm_np_div L;
  np_exp := libm_exp L;
  np_abs := libm_abs L;
  np_angle := libm_angle L;
  np_cos := libm_cos L;
  np_sin := libm_sin L
|}.

(** The interval [[0.1, 1.0]] of binary64 numbers. *)
Definition in_speed_range (s : float) : Prop :=
  (0x1.999999999999ap-4 <=? s) = true /\ (s <=? 1) = true.

(** The speed a wheel event asks for, before clamping. *)
Definition requested_speed (s : float) (y : Z) : float :=
  s + float_of_int y * 0x1.999999999999ap-4.

(** The order a stable ascending sort by [key] gives a list whose [idx]
    decreases: smaller keys first, equal keys by decreasing [idx]. *)
Definition stable_ascending {T : Type} (key : T -> float) (idx : T -> Z)
    (a b : T) : Prop :=
  (key a <? key b) = true
  \/ ((key a =? key b) = true /\ (idx b < idx a)%Z).

(** Descending keys, equal keys by ascending [idx]. *)
Definition stable_descending {T : Type} (key : T -> float) (idx : T -> Z)
    (a b : T) : Prop :=
  (key b <? key a) = true
  \/ ((key a =? key b) = true /\ (idx a < idx b)%Z).

(** *** A reference [Libm]

    Schoolbook formulas and truncated power series, for running the model
    on concrete inputs. *)

Definition textbook_mul (z w : float * float) : float * float :=
  (fst z * fst w - snd z * snd w, fst z * snd w + snd z * fst w).

Definition textbook_div (z w : float * float) : float * float :=
  let d := fst w * fst w + snd w * snd w in
  ((fst z * fst w + snd z * snd w) / d, (snd z * fst w - fst z * snd w) / d).

(** [sum_{i < fuel} term_i] with [term_{i+1} = term_i * ratio i]. *)
Fixpoint power_series (fuel : nat) (i : Z) (ratio : Z -> float)
    (term acc : float) : float :=
  match fuel with
  | O => acc
  | S fuel' =>
      power_series fuel' (i + 1)%Z ratio (term * ratio i) (acc + term)
  end.

Definition series_exp (x : float) : float :=
  power_series 40 0 (fun i => x / float_of_int (i + 1)) 1 0.

Definition taylor_cos (x : float) : float :=
  power_series 12 0
    (fun i => - (x * x) / float_of_int ((2 * i + 1) * (2 * i + 2))) 1 0.

Definition taylor_sin (x : float) : float :=
  power_series 12 0
    (fun i => - (x * x) / float_of_int ((2 * i + 2) * (2 * i + 3))) x 0.

(** [cos] and [sin] of [2^n a] from those of [a]. *)
Fixpoint double_angle (n : nat) (cs : float * float) : float * float :=
  match n with
  | O => cs
  | S n' =>
      double_angle n'
        (fst cs * fst cs - snd cs * snd cs, 2 * snd cs * fst cs)
  end.

Definition series_cos (x : float) : float :=
  fst (double_angle 8 (taylor_cos (x / 256), taylor_sin (x / 256))).

Definition series_sin (x : float) : float :=
  snd (double_angle 8 (taylor_cos (x / 256), taylor_sin (x / 256))).

Definition halve_atan_arg (x : float) : float := x / (1 + sqrt (1 + x * x)).

Definition series_atan (x : float) : float :=
  let u := halve_atan_arg (halve_atan_arg x) in
  4 * power_series 40 0
        (fun i => - (u * u) * float_of_int (2 * i + 1) / float_of_int (2 * i + 3))
        u 0.

Definition series_atan2 (y x : float) : float :=
  let pi := 0x1.921fb54442d18p+1 in
  if 0 <? x then series_atan (y / x)
  else if x <? 0 then
    (if y <? 0 then series_atan (y / x) - pi else series_atan (y / x) + pi)
  else if 0 <? y then pi / 2
  else if y <? 0 then - (pi / 2)
  else 0.

Definition textbook_libm : Libm := {|
  libm_cmul := textbook_mul;
  libm_cdiv := textbook_div;
  libm_np_mul := textbook_mul;
  libm_np_div := textbook_div;
  libm_exp := fun z =>
    (series_exp (fst z) * series_cos (snd z),
     series_exp (fst z) * series_sin (snd z));
  libm_abs := fun z => sqrt (fst z * fst z + snd z * snd z);
  libm_angle := fun z => series_atan2 (snd z) (fst z);
  libm_cos := series_cos;
  libm_sin := series_sin
|}.

End Binary64.

(** ** An idealisation over the real numbers

    The same program text read over the real numbers.  It is not the
    arithmetic the program runs on: rounding, overflow and NaN are absent,
    and its results differ from those of the binary64 run.  It serves the
    algebraic identity behind the transform only. *)

Module Exact.

Import Reals Lra.
Local Open Scope R_scope.

Definition Cadd (z w : R * R) : R * R := (fst z + fst w, snd z + snd w).

Definition Cneg (z : R * R) : R * R := (- fst z, - snd z).

Definition Cmul (z w : R * R) : R * R :=
  (fst z * fst w - snd z * snd w, fst z * snd w + snd z * fst w).

Definition Cdiv (z w : R * R) : R * R :=
  ((fst z * fst w + snd z * snd w) / (fst w * fst w + snd w * snd w),
   (snd z * fst w - fst z * snd w) / (fst w * fst w + snd w * snd w)).

Definition Cexp (z : R * R) : R * R :=
  (exp (fst z) * cos (snd z), exp (fst z) * sin (snd z)).

Definition Cabs (z : R * R) : R := sqrt (fst z * fst z + snd z * snd z).

(** [arctan2(y, x)], the angle of the point [(x, y)] in [(-pi, pi]]. *)
Definition arctan2 (y x : R) : R :=
  if Rlt_dec 0 x then atan (y / x)
  else if Rlt_dec x 0 then
    (if Rle_dec 0 y then atan (y / x) + PI else atan (y / x) - PI)
  else if Rlt_dec 0 y then PI / 2
  else if Rlt_dec y 0 then - (PI / 2)
  else 0.

#[export] Instance exact : Arith := {|
  flt := R;
  cpx := R * R;
  of_int := IZR;
  lit_0_1 := 1 / 10;
  math_pi := PI;
  fadd := Rplus;
  fsub := Rminus;
  fmul := Rmult;
  fdiv := Rdiv;
  fltb := fun x y => if Rlt_dec x y then true else false;
  fleb := fun x y => if Rle_dec x y then true else false;
  feqb := fun x y => if Req_dec_T x y then true else false;
  complex_ := fun re im => (re, im);
  cneg := Cneg;
  cmul := Cmul;
  cdiv := Cdiv;
  np_add := Cadd;
  np_mul := Cmul;
  np_div := Cdiv;
  np_exp := Cexp;
  np_abs := Cabs;
  np_angle := fun z => arctan2 (snd z) (fst z);
  np_cos := cos;
  np_sin := sin
|}.

(** [sum_{i < n} f i] *)
Fixpoint Rsum (f : nat -> R) (n : nat) : R :=
  match n with
  | O => 0
  | S m => Rsum f m + f m
  end.

(** A recording of two points. *)
Definition two_recorded_points : list (@DrawPoint exact) :=
  [@mkDrawPoint exact (100, 100)%Z 0; @mkDrawPoint exact (700, 500)%Z 0].

End Exact.

(** ** Statements of the specification *)

Section Statements.

Context {A : Arith}.

(** The raw output of the transform as the specification names it: one
    (index, coefficient) pair per frequency index, unfiltered, in index
    order. *)
Definition raw_coefficients (points : list DrawPoint) : list (Z * cpx) :=
  let samples := map complex_point points in
  map (fun n => (n, dft_coefficient samples n))
      (freq_indices (Z.of_nat (length samples))).

(** [sum_{k=0}^{N-1} sample(k) * exp(-2 pi i n k / N)], the terms added in
    ascending order of [k]. *)
Definition dft_sum (samples : list cpx) (n : Z) : cpx :=
  let N := Z.of_nat (length samples) in
  fold_left
    (fun acc k =>
       np_add acc (np_mul (nth k samples (c_of_int 0))
                          (twiddle n (Z.of_nat k) N)))
    (seq 0 (length samples)) (c_of_int 0).

(** The vector one coefficient contributes at time [t]. *)
Definition epicycle_vector (e : Z * cpx) (t : flt) : flt * flt :=
  let angle := fadd (fmul (fmul (fmul (of_int 2) math_pi) (of_int (fst e))) t)
                    (np_angle (snd e)) in
  (fmul (np_abs (snd e)) (np_cos angle), fmul (np_abs (snd e)) (np_sin angle)).

(** The composite point: the canvas centre advanced by each vector in list
    order. *)
Definition composite_point (eps : list (Z * cpx)) (t : flt) : flt * flt :=
  fold_left
    (fun position e =>
       (fadd (fst position) (fst (epicycle_vector e t)),
        fadd (snd position) (snd (epicycle_vector e t))))
    eps canvas_center.

(** The paths force-complete acts on: [paths], and the replay queue while
    a replay is running. *)
Definition active_paths (d : FourierDrawing) : list Path :=
  paths d ++ (if animating_all d then remaining_paths d else []).

(** The paths a drawing stores are past their recording. *)
Definition recorded (p : Path) : Prop := state p <> drawing.

(** Every path a drawing holds. *)
Definition stored_paths (d : FourierDrawing) : list Path :=
  paths d ++ completed_paths d ++ remaining_paths d.

Definition all_recorded (d : FourierDrawing) : Prop :=
  Forall recorded (stored_paths d).

(** [finishes speed p n q]: stepped [n] times at [speed], the animating
    path [p] becomes [q], complete at the [n]-th step and not before. *)
Inductive finishes (speed : flt) : Path -> nat -> Path -> Prop :=
  | finishes_last (p q : Path) :
      state p = animating -> animate p speed = Some q ->
      state q = complete -> finishes speed p 1 q
  | finishes_step (p q r : Path) (n : nat) :
      state p = animating -> animate p speed = Some q ->
      state q = animating -> finishes speed q n r ->
      finishes speed p (S n) r.

(** The same search, bounded by [fuel] frames. *)
Fixpoint frames_to_complete (fuel : nat) (p : Path) (speed : flt)
    : option (nat * Path) :=
  match fuel with
  | O => None
  | S fuel' =>
      match state p with
      | animating =>
          match animate p speed with
          | None => None
          | Some q =>
              match state q with
              | complete => Some (1%nat, q)
              | animating =>
                  match frames_to_complete fuel' q speed with
                  | Some (n, r) => Some (S n, r)
                  | None => None
                  end
              | drawing => None
              end
          end
      | _ => None
      end
  end.

Definition finishes_within (fuel : nat) (p : Path) (speed : flt) : bool :=
  match frames_to_complete fuel p speed with
  | Some _ => true
  | None => false
  end.

(** A path of the replay after its turn: complete, the same curve. *)
Definition replayed (p q : Path) : Prop :=
  state q = complete
  /\ raw_points q = raw_points p /\ epicycles q = epicycles p.

Definition animating_count (d : FourierDrawing) : nat :=
  length
    (filter (fun p => PathState_eqb (state p) animating)
       (paths d ++ completed_paths d ++ remaining_paths d)).

(** The drawing in the middle of a replay of [ps]: the paths before
    position [length (completed_paths d)] are done, the path at that
    position is the one of [paths] and is animating, the paths behind it
    wait in the queue as they were. *)
Definition replaying (ps : list Path) (d : FourierDrawing) : Prop :=
  let j := length (completed_paths d) in
  animating_all d = true
  /\ (j < length ps)%nat
  /\ Forall2 replayed (firstn j ps) (completed_paths d)
  /\ (exists cur : Path,
        paths d = [cur] /\ state cur = animating
        /\ raw_points cur = raw_points (nth j ps new_Path)
        /\ epicycles cur = epicycles (nth j ps new_Path))
  /\ remaining_paths d = skipn (S j) ps.

Definition replay_done (ps : list Path) (d : FourierDrawing) : Prop :=
  animating_all d = false
  /\ Forall2 replayed ps (paths d)
  /\ completed_paths d = []
  /\ remaining_paths d = [].

Definition with_paths (d : FourierDrawing) (ps : list Path) : FourierDrawing :=
  set_paths_current d ps (current_path d).


(** [n] calls of [animate] on one path. *)
Fixpoint animate_frames (n : nat) (p : Path) (speed : flt) : option Path :=
  match n with
  | O => Some p
  | S n' =>
      match animate p speed with
      | None => None
      | Some p' => animate_frames n' p' speed
      end
  end.

(** The path a recording of the points [xys] leaves in [current_path], and
    the path [finish_current_path] makes of it. *)
Definition recorded_path (xys : list (Z * Z)) : Path :=
  fold_left (fun p xy => add_point p xy (of_int 0)) xys new_Path.

Definition finished_path (xys : list (Z * Z)) : Path :=
  set_state (calculate_fourier (recorded_path xys)) animating.

End Statements.

(** ** Concrete drawings

    Paths and drawings on which the model is run, in the binary64
    interpretation with the reference [Libm]. *)

Module Scenario.
Import Binary64.
Local Open Scope float_scope.

Definition A64 : Arith := binary64 textbook_libm.

Definition ten_points : list (Z * Z) :=
  [(500, 300); (481, 359); (431, 395); (369, 395); (319, 359);
   (300, 300); (319, 241); (369, 205); (431, 205); (481, 241)]%Z.
Definition square_points : list (Z * Z) :=
  [(500, 300); (400, 400); (300, 300); (400, 200)]%Z.
Definition triangle_points : list (Z * Z) :=
  [(500, 300); (350, 387); (350, 213)]%Z.
Definition two_points : list (Z * Z) := [(100, 100); (700, 500)]%Z.

(** The path [finished_path xys] once its animation has ended. *)
Definition animated_path (xys : list (Z * Z)) : @Path A64 :=
  match frames_to_complete 100 (@finished_path A64 xys)
          (@DEFAULT_SPEED A64) with
  | Some (_, q) => q
  | None => @new_Path A64
  end.

Definition with_current (p : @Path A64) : @FourierDrawing A64 :=
  set_paths_current (@new_FourierDrawing A64) [] (Some p).

Definition three_paths : @FourierDrawing A64 :=
  set_paths_current (@new_FourierDrawing A64)
    [animated_path square_points; animated_path triangle_points;
     animated_path ten_points] None.

(** The drawing right after a two-point recording has ended. *)
Definition just_finished : @FourierDrawing A64 :=
  finish_current_path (with_current (recorded_path two_points)).

(** The drawing in the middle of the replay of the three paths. *)
Definition mid_replay : @FourierDrawing A64 :=
  match run_frames 5 (key_space three_paths) with
  | Some d => d
  | None => new_FourierDrawing
  end.

(** Three iterations of [main]: the left button goes down at (100, 100);
    the pointer moves to (700, 500); the left button is released and the
    right button pressed before the next iteration. *)
Definition click_release_click : option (@MainState A64) :=
  match main_iteration (@main_start A64) [MOUSEBUTTONDOWN 1 false]
          (100, 100)%Z 0 with
  | Some s1 =>
      match main_iteration s1 [] (700, 500)%Z 0 with
      | Some s2 =>
          main_iteration s2 [MOUSEBUTTONUP 1; MOUSEBUTTONDOWN 3 false]
            (700, 500)%Z 0
      | None => None
      end
  | None => None
  end.

End Scenario.

(** ** Runs of [main] *)

Section RunDefs.

Context {A : Arith}.

(** What one iteration of [main] reads: the events of
    [pygame.event.get()], the pointer position and the clock. *)
Definition Input : Type := (list Event * (Z * Z) * flt)%type.

(** The iterations of [while running] over a list of inputs; the loop is
    left once [running] is cleared. *)
Fixpoint run_main (s : MainState) (inputs : list Input) : option MainState :=
  match inputs with
  | [] => Some s
  | (events, mouse, now) :: inputs' =>
      if running s then
        match main_iteration s events mouse now with
        | None => None
        | Some s' => run_main s' inputs'
        end
      else Some s
  end.

(** A path a drawing may hold: past its recording, with the two points
    [finish_current_path] asks for. *)
Definition drawable (p : Path) : Prop :=
  state p <> drawing /\ (2 <= length (raw_points p))%nat.

(** The iterations during which the button stays down: no event, one
    pointer sample each. *)
Definition held_inputs (samples : list ((Z * Z) * flt)) : list Input :=
  map (fun s => ([], fst s, snd s)) samples.

(** The time after each call of [animate] until the test [time >= 1]
    passes, counted in frames; [None] when [fuel] frames do not reach it. *)
Fixpoint clock_frames (fuel : nat) (dt t : flt) : option nat :=
  match fuel with
  | O => None
  | S fuel' =>
      if fleb (of_int 1) (fadd t dt) then Some 1%nat
      else option_map S (clock_frames fuel' dt (fadd t dt))
  end.

End RunDefs.

(** Data for the statements about runs of [main]. *)
Module Strokes.
Import Binary64 Scenario.
Local Open Scope float_scope.

(** The state of [main] after a left press on an empty canvas. *)
Definition pressed : @MainState A64 :=
  handle_event (@main_start A64) (MOUSEBUTTONDOWN 1 false).

(** Three pointer samples with their clock values. *)
Definition three_samples : list ((Z * Z) * @flt A64) :=
  [((100, 100)%Z, 0.5); ((110, 120)%Z, 0.515625); ((130, 150)%Z, 0.53125)].

(** A path of two points half way through its animation. *)
Definition half_way : @Path A64 :=
  set_time (@finished_path A64 two_points) 0.5.

(** A replay at [half_way], with a path behind it in [paths]. *)
Definition replay_with_late_path : @FourierDrawing A64 :=
  {| paths := [half_way; @finished_path A64 square_points];
     current_path := None; show_help := false; animating_all := true;
     current_animation_index := 0; animation_speed := @DEFAULT_SPEED A64;
     completed_paths := []; show_original := false;
     remaining_paths := [] |}.

End Strokes.

(** ** Replays *)

Section ReplayDefs.

Context {A : Arith}.

(** Iterations of [main] in which no event arrives; each reads the pointer
    position and the clock value given. *)
Definition quiet_inputs (samples : list ((Z * Z) * flt)) : list Input :=
  map (fun s => ([], fst s, snd s)) samples.

(** How far a replay of the paths has come: the number of paths done while
    it runs, the number of paths once it is over. *)
Definition replay_position (d : FourierDrawing) : nat :=
  if animating_all d then length (completed_paths d) else length (paths d).

(** The drawing during or after a replay of [ps]: either the replay is at
    one of the paths, which alone is animating, or it is over. *)
Definition replay_state (ps : list Path) (d : FourierDrawing) : Prop :=
  (replaying ps d /\ animating_count d = 1%nat) \/ replay_done ps d.

(** Two drawings that differ in [current_path], the help overlay or the
    original-drawing overlay only. *)
Definition same_replay (d1 d2 : FourierDrawing) : Prop :=
  paths d1 = paths d2
  /\ completed_paths d1 = completed_paths d2
  /\ remaining_paths d1 = remaining_paths d2
  /\ animating_all d1 = animating_all d2
  /\ animation_speed d1 = animation_speed d2.

(** A path that can be replayed: complete, with a point to divide by. *)
Definition replayable (p : Path) : Prop :=
  state p = complete /\ raw_points p <> [].

End ReplayDefs.

(** Data for the statements about replays. *)
Module Replays.
Import Binary64 Scenario.
Local Open Scope float_scope.

(** [main] with the three paths on the canvas and the button up. *)
Definition three_on_canvas : @MainState A64 :=
  mkMainState three_paths true false.

(** [n] iterations without an event, the pointer resting at (400, 300). *)
Definition quiet (n : nat) : list ((Z * Z) * @flt A64) :=
  repeat ((400, 300)%Z, 0) n.

End Replays.


(** The clock of [animate] on binary64 numbers. *)
Module Clock64.
Import Binary64.
Local Open Scope float_scope.

(** [clock_frames] on binary64 numbers. *)
Fixpoint clock64 (fuel : nat) (dt t : float) : option nat :=
  match fuel with
  | O => None
  | S fuel' =>
      if 1 <=? t + dt then Some 1%nat
      else option_map S (clock64 fuel' dt (t + dt))
  end.

(** The frames an animation of [N] points takes at full speed are [N] or
    [N + 1]. *)
Definition frames_checked (N : nat) : bool :=
  match clock64 (N + 2)
          (float_of_int 1 / float_of_int (Z.of_nat N) * float_of_int 1)
          (float_of_int 0) with
  | Some n => (n =? N)%nat || (n =? S N)%nat
  | None => false
  end.

End Clock64.


(** ** Facts that hold in every arithmetic *)

Section CoreFacts.

Context {A : Arith}.

Lemma py_range_from_seq (start : Z) (count : nat) :
  py_range_from start count
  = map (fun i => (start + Z.of_nat i)%Z) (seq 0 count).
Proof.
  revert start. induction count as [|c IH]; intros start; [reflexivity|].
  cbn [py_range_from seq map]. f_equal; [lia|].
  rewrite IH, <- seq_shift, map_map. apply map_ext. intros i. lia.
Qed.

Lemma py_range_from_length (start : Z) (count : nat) :
  length (py_range_from start count) = count.
Proof. rewrite py_range_from_seq, length_map, length_seq. reflexivity. Qed.

Lemma freq_indices_count (N : Z) :
  (0 <= N)%Z ->
  Z.to_nat (py_floordiv N 2 - py_floordiv (- N) 2) = Z.to_nat N.
Proof.
  intros HN. unfold py_floordiv. f_equal.
  pose proof (Z.div_mod N 2 ltac:(lia)) as H1.
  pose proof (Z.mod_pos_bound N 2 ltac:(lia)) as H2.
  pose proof (Z.div_mod (- N) 2 ltac:(lia)) as H3.
  pose proof (Z.mod_pos_bound (- N) 2 ltac:(lia)) as H4.
  lia.
Qed.

Lemma floordiv_neg_ceil (N : Z) :
  py_floordiv (- N) 2 = (- ((N + 1) / 2))%Z.
Proof.
  unfold py_floordiv.
  pose proof (Z.div_mod (N + 1) 2 ltac:(lia)) as H1.
  pose proof (Z.mod_pos_bound (N + 1) 2 ltac:(lia)) as H2.
  pose proof (Z.div_mod (- N) 2 ltac:(lia)) as H3.
  pose proof (Z.mod_pos_bound (- N) 2 ltac:(lia)) as H4.
  lia.
Qed.

Lemma freq_indices_seq (N : nat) :
  freq_indices (Z.of_nat N)
  = map (fun i => (- ((Z.of_nat N + 1) / 2) + Z.of_nat i)%Z) (seq 0 N).
Proof.
  unfold freq_indices, py_range.
  rewrite freq_indices_count, Nat2Z.id, py_range_from_seq by lia.
  rewrite floordiv_neg_ceil. reflexivity.
Qed.

Lemma sum_loop_fold (samples : list cpx) (n N : Z) (ks : list Z) (c : cpx) :
  sum_loop samples n N ks c
  = fold_left
      (fun acc k =>
         np_add acc (np_mul (nth (Z.to_nat k) samples (c_of_int 0))
                            (twiddle n k N)))
      ks c.
Proof.
  revert c. induction ks as [|k ks IH]; intros c; [reflexivity|].
  cbn [sum_loop fold_left]. apply IH.
Qed.

Lemma fold_left_map {X Y Z' : Type} (f : X -> Y -> X) (g : Z' -> Y)
    (l : list Z') (x : X) :
  fold_left f (map g l) x = fold_left (fun a z => f a (g z)) l x.
Proof.
  revert x. induction l as [|z l IH]; intros x; [reflexivity|].
  cbn [map fold_left]. apply IH.
Qed.

Lemma fold_left_ext_in {X Y : Type} (f g : X -> Y -> X) (l : list Y) (x : X) :
  (forall a y, In y l -> f a y = g a y) ->
  fold_left f l x = fold_left g l x.
Proof.
  revert x. induction l as [|y l IH]; intros x H; [reflexivity|].
  cbn [fold_left]. rewrite (H x y (or_introl eq_refl)).
  apply IH. intros a z Hz. apply H. right. exact Hz.
Qed.

Lemma dft_coefficient_sum (samples : list cpx) (n : Z) :
  dft_coefficient samples n
  = np_div (dft_sum samples n) (c_of_int (Z.of_nat (length samples))).
Proof.
  unfold dft_coefficient, dft_sum. cbv zeta. f_equal.
  rewrite sum_loop_fold. unfold py_range.
  rewrite Z.sub_0_r, Nat2Z.id, py_range_from_seq, fold_left_map.
  apply fold_left_ext_in. intros a k _.
  cbn [Z.add]. rewrite Nat2Z.id. reflexivity.
Qed.

(** The outer loop keeps, in index order, the raw pairs that pass the
    test. *)
Lemma fourier_loop_filter (samples : list cpx) (ns : list Z)
    (acc : list (Z * cpx)) :
  fourier_loop samples ns acc
  = acc ++ filter (fun x => above_threshold (snd x))
             (map (fun n => (n, dft_coefficient samples n)) ns).
Proof.
  revert acc. induction ns as [|n ns IH]; intros acc.
  - cbn. rewrite app_nil_r. reflexivity.
  - cbn [fourier_loop map filter snd]. rewrite IH.
    destruct (above_threshold (dft_coefficient samples n)).
    + rewrite <- app_assoc. reflexivity.
    + reflexivity.
Qed.

(** C1 (amended): the transform of [N] points visits the [N] consecutive
    frequency indices from [-ceil(N/2)] (Python's [-N//2]) to
    [floor(N/2) - 1], one coefficient per index, and the coefficient at
    index [n] is the sum over [k = 0 .. N-1], in ascending order of [k], of
    the centred complex sample [k] times [exp(-2 pi i n k / N)], divided by
    [N]. *)
Theorem transform_indices_and_coefficients (points : list DrawPoint) :
  let samples := map complex_point points in
  let N := length points in
  map fst (raw_coefficients points)
  = map (fun i => (- ((Z.of_nat N + 1) / 2) + Z.of_nat i)%Z) (seq 0 N)
  /\ length (raw_coefficients points) = N
  /\ (- ((Z.of_nat N + 1) / 2) + Z.of_nat N - 1
      = py_floordiv (Z.of_nat N) 2 - 1)%Z
  /\ map snd (raw_coefficients points)
     = map (fun n => np_div (dft_sum samples n) (c_of_int (Z.of_nat N)))
           (freq_indices (Z.of_nat N)).
Proof.
  cbv zeta. unfold raw_coefficients. cbv zeta.
  rewrite !map_map, !length_map. cbn [fst snd].
  rewrite map_id. repeat split.
  - apply freq_indices_seq.
  - rewrite freq_indices_seq, length_map, length_seq. reflexivity.
  - unfold py_floordiv.
    pose proof (Z.div_mod (Z.of_nat (length points) + 1) 2 ltac:(lia)).
    pose proof (Z.mod_pos_bound (Z.of_nat (length points) + 1) 2 ltac:(lia)).
    pose proof (Z.div_mod (Z.of_nat (length points)) 2 ltac:(lia)).
    pose proof (Z.mod_pos_bound (Z.of_nat (length points)) 2 ltac:(lia)).
    lia.
  - apply map_ext. intros n.
    rewrite dft_coefficient_sum, length_map. reflexivity.
Qed.

End CoreFacts.

(** C1 as stated fails for an odd number of points: with three points the
    loop visits the index [-2], below [-floor(3/2) = -1]. *)
Lemma odd_count_starts_below_minus_half :
  ~ (forall n : Z, In n (freq_indices 3) -> (- (3 / 2) <= n <= 3 / 2 - 1)%Z).
Proof.
  intros H. specialize (H (-2)%Z). cbn in H.
  assert (Hin : (-2 = -2 \/ -1 = -2 \/ 0 = -2 \/ False)%Z) by (left; reflexivity).
  specialize (H Hin). lia.
Qed.

Section PathFacts.

Context {A : Arith}.

Lemma point_loop_fold (eps : list (Z * cpx)) (t x y : flt) :
  point_loop eps t x y
  = fold_left
      (fun position e =>
         (fadd (fst position) (fst (epicycle_vector e t)),
          fadd (snd position) (snd (epicycle_vector e t))))
      eps (x, y).
Proof.
  revert x y. induction eps as [|[n c] eps IH]; intros x y; [reflexivity|].
  cbn [point_loop fold_left]. rewrite IH. reflexivity.
Qed.

Lemma chain_loop_point_loop (eps : list (Z * cpx)) (t : flt)
    (center : flt * flt) :
  chain_loop eps t center = point_loop eps t (fst center) (snd center).
Proof.
  revert center. induction eps as [|[n c] eps IH]; intros [x y];
    [reflexivity|].
  cbn [chain_loop point_loop fst snd]. rewrite IH. reflexivity.
Qed.

(** The point [animate] appends is the one [calculate_point] returns. *)
Lemma draw_epicycles_calculate_point (p : Path) (t : flt) :
  draw_epicycles p t = calculate_point p t.
Proof. apply chain_loop_point_loop. Qed.

(** C3: [calculate_point] starts at the canvas centre
    [(WIDTH/2, HEIGHT/2)] and adds, for each coefficient [(n, c)] in list
    order, [(|c| cos(2 pi n t + arg c), |c| sin(2 pi n t + arg c))] to the
    running position; with no coefficient the result is the canvas centre
    for every [t]; and the result is a function of the coefficient list and
    [t] alone. *)
Theorem calculate_point_composite (p : Path) (t : flt) :
  calculate_point p t = composite_point (epicycles p) t
  /\ canvas_center
     = (fdiv (of_int WIDTH) (of_int 2), fdiv (of_int HEIGHT) (of_int 2))
  /\ calculate_point (set_epicycles p []) t = canvas_center
  /\ forall q : Path,
       calculate_point (set_epicycles q (epicycles p)) t
       = calculate_point p t.
Proof.
  split; [|split; [reflexivity|split; [|reflexivity]]].
  - unfold calculate_point, composite_point.
    rewrite point_loop_fold. reflexivity.
  - reflexivity.
Qed.

Lemma complete_animation_keeps (p : Path) :
  raw_points (complete_animation p) = raw_points p
  /\ epicycles (complete_animation p) = epicycles p
  /\ animation_points (complete_animation p) = animation_points p
  /\ time (complete_animation p) = time p
  /\ display_index (complete_animation p) = display_index p.
Proof.
  unfold complete_animation. destruct (state p); cbn; repeat split.
Qed.

(** C10: [complete_animation] turns the state [animating] into [complete]
    and changes no other field; in any other state it changes nothing. *)
Theorem complete_animation_frame (p : Path) :
  raw_points (complete_animation p) = raw_points p
  /\ epicycles (complete_animation p) = epicycles p
  /\ animation_points (complete_animation p) = animation_points p
  /\ time (complete_animation p) = time p
  /\ display_index (complete_animation p) = display_index p
  /\ state (complete_animation p)
     = match state p with animating => complete | s => s end
  /\ (state p <> animating -> complete_animation p = p).
Proof.
  unfold complete_animation.
  destruct (state p) eqn:Hs; cbn; rewrite ?Hs; repeat split; congruence.
Qed.

Lemma complete_animation_recorded (p : Path) :
  recorded p -> state (complete_animation p) = complete.
Proof.
  unfold recorded, complete_animation.
  destruct (state p) eqn:Hs; cbn; congruence.
Qed.

(** C8: when the recording ends with fewer than two points the path is
    dropped: [paths] and the other collections are as before and no path is
    being recorded; with two points or more the path, transformed and in
    the state [animating], is appended to [paths].  The operation cannot
    fail. *)
Theorem finish_current_path_cases (d : FourierDrawing) (p : Path) :
  current_path d = Some p ->
  current_path (finish_current_path d) = None
  /\ completed_paths (finish_current_path d) = completed_paths d
  /\ remaining_paths (finish_current_path d) = remaining_paths d
  /\ ((length (raw_points p) < 2)%nat ->
      paths (finish_current_path d) = paths d)
  /\ ((2 <= length (raw_points p))%nat ->
      exists q : Path,
        paths (finish_current_path d) = paths d ++ [q]
        /\ state q = animating
        /\ raw_points q = raw_points p
        /\ epicycles q = fourier_epicycles (raw_points p)
        /\ animation_points q = animation_points p
        /\ time q = time p).
Proof.
  intros Hcur. unfold finish_current_path. rewrite Hcur.
  destruct (Nat.ltb_spec 1 (length (raw_points p))) as [Hlen|Hlen];
    cbn; repeat split; try lia.
  intros _. eexists. split; [reflexivity|].
  unfold calculate_fourier.
  destruct (Nat.ltb_spec (length (raw_points p)) 2) as [H2|H2]; [lia|].
  cbn. repeat split.
Qed.

Lemma Forall_map_iff {X Y : Type} (f : X -> Y) (P : Y -> Prop) (l : list X) :
  Forall P (map f l) <-> Forall (fun x => P (f x)) l.
Proof.
  induction l as [|x l IH]; cbn; split; intros H; try constructor;
    inversion H; subst; try tauto.
Qed.

(** C7 (amended): force-complete puts every active path, the queued ones
    included, in the state [complete], ends the replay, and leaves every
    path's animated trace, time and coefficients as they were: no point is
    computed. *)
Theorem complete_all_animations_effect (d : FourierDrawing) :
  Forall recorded (active_paths d) ->
  paths (complete_all_animations d)
  = map complete_animation (active_paths d)
  /\ Forall (fun q => state q = complete) (paths (complete_all_animations d))
  /\ map animation_points (paths (complete_all_animations d))
     = map animation_points (active_paths d)
  /\ map time (paths (complete_all_animations d))
     = map time (active_paths d)
  /\ map epicycles (paths (complete_all_animations d))
     = map epicycles (active_paths d)
  /\ animating_all (complete_all_animations d) = false
  /\ (animating_all d = true ->
      remaining_paths (complete_all_animations d) = [])
  /\ completed_paths (complete_all_animations d) = completed_paths d.
Proof.
  intros Hrec.
  assert (Hpaths : paths (complete_all_animations d)
                   = map complete_animation (active_paths d)).
  { unfold complete_all_animations, active_paths.
    destruct (animating_all d); cbn.
    - rewrite map_app. reflexivity.
    - rewrite app_nil_r. reflexivity. }
  rewrite Hpaths. repeat split.
  - apply Forall_map_iff. revert Hrec. apply Forall_impl.
    intros p. apply complete_animation_recorded.
  - rewrite map_map. apply map_ext. intros p.
    apply (complete_animation_keeps p).
  - rewrite map_map. apply map_ext. intros p.
    apply (complete_animation_keeps p).
  - rewrite map_map. apply map_ext. intros p.
    apply (complete_animation_keeps p).
  - unfold complete_all_animations. destruct (animating_all d) eqn:E; cbn; auto.
  - intros E. unfold complete_all_animations. rewrite E. reflexivity.
  - unfold complete_all_animations. destruct (animating_all d); reflexivity.
Qed.

End PathFacts.

(** ** The event loop *)

Section LoopFacts.

Context {A : Arith}.

Lemma animate_step (p : Path) (speed dt : flt) :
  state p = animating -> time_step p speed = Some dt ->
  exists q,
    animate p speed = Some q
    /\ animation_points q = animation_points p ++ [calculate_point p (time p)]
    /\ raw_points q = raw_points p
    /\ epicycles q = epicycles p
    /\ time q = (if fleb (of_int 1) (fadd (time p) dt)
                 then of_int 0 else fadd (time p) dt)
    /\ state q = (if fleb (of_int 1) (fadd (time p) dt)
                  then complete else animating).
Proof.
  intros Hs Hdt. unfold animate. rewrite Hs.
  assert (Hdt' : time_step
                   (set_animation_points p
                      (animation_points p ++ [draw_epicycles p (time p)]))
                   speed = Some dt) by exact Hdt.
  rewrite Hdt'. cbn [time set_time set_animation_points].
  rewrite draw_epicycles_calculate_point.
  destruct (fleb (of_int 1) (fadd (time p) dt)); eexists;
    (split; [reflexivity|]); cbn; repeat split; assumption.
Qed.

Lemma animate_recorded (p q : Path) (speed : flt) :
  animate p speed = Some q -> recorded p -> recorded q.
Proof.
  unfold animate, recorded. destruct (state p) eqn:Hs.
  - intros E. inversion E; subst. congruence.
  - destruct (time_step _ speed) as [dt|]; [|discriminate].
    match goal with |- context [if ?b then _ else _] => destruct b end;
      intros E _; inversion E; cbn; congruence.
  - intros E. inversion E; subst. congruence.
Qed.

Lemma animate_paths_recorded (ps qs : list Path) (speed : flt) :
  animate_paths ps speed = Some qs -> Forall recorded ps -> Forall recorded qs.
Proof.
  revert qs. induction ps as [|p ps IH]; intros qs; cbn.
  - intros E _. inversion E. constructor.
  - destruct (match state p with animating => animate p speed | _ => Some p end)
      as [p'|] eqn:Hp; [|discriminate].
    destruct (animate_paths ps speed) as [ps'|]; [|discriminate].
    intros E H. inversion E; subst. inversion H; subst.
    constructor; [|apply IH; auto].
    destruct (state p) eqn:Hs.
    + inversion Hp; subst. assumption.
    + eapply animate_recorded; eassumption.
    + inversion Hp; subst. assumption.
Qed.

Lemma restart_recorded (p : Path) : recorded (restart p).
Proof. unfold recorded, restart. cbn. discriminate. Qed.

Lemma complete_animation_keeps_recorded (p : Path) :
  recorded p -> recorded (complete_animation p).
Proof.
  unfold recorded, complete_animation. destruct (state p) eqn:Hs; cbn;
    congruence.
Qed.

Ltac split_stored :=
  unfold all_recorded, stored_paths, set_paths_current in *;
  cbn [paths completed_paths remaining_paths] in *;
  rewrite ?Forall_app in *.

Lemma key_space_recorded (d : FourierDrawing) :
  all_recorded d -> all_recorded (key_space d).
Proof.
  unfold key_space. destruct (paths d) as [|p ps] eqn:Hp; [tauto|].
  intros H. split_stored. rewrite Hp in H.
  destruct H as (H1 & H2 & H3). inversion H1; subst.
  repeat split; try constructor; auto using restart_recorded.
Qed.

Lemma key_clear_recorded (d : FourierDrawing) :
  all_recorded d -> all_recorded (key_clear d).
Proof.
  intros H. unfold key_clear. split_stored. intuition constructor.
Qed.

Lemma start_new_path_recorded (d : FourierDrawing) (clear_existing : bool) :
  all_recorded d -> all_recorded (start_new_path d clear_existing).
Proof.
  intros H. unfold start_new_path. destruct clear_existing; split_stored;
    intuition constructor.
Qed.

Lemma finish_current_path_recorded (d : FourierDrawing) :
  all_recorded d -> all_recorded (finish_current_path d).
Proof.
  intros H. unfold finish_current_path.
  destruct (current_path d) as [p|]; [|exact H].
  destruct (1 <? length (raw_points p))%nat; [|exact H].
  split_stored. destruct H as (H1 & H2 & H3).
  repeat split; auto. constructor; [|constructor].
  unfold recorded. cbn. discriminate.
Qed.

Lemma complete_all_animations_recorded (d : FourierDrawing) :
  all_recorded d -> all_recorded (complete_all_animations d).
Proof.
  intros H. unfold complete_all_animations.
  destruct (animating_all d); split_stored; destruct H as (H1 & H2 & H3);
    repeat split; auto; try constructor;
    apply Forall_map_iff; (eapply Forall_impl; [|eassumption]);
    apply complete_animation_keeps_recorded.
Qed.

Lemma sequential_animation_recorded (d : FourierDrawing) :
  all_recorded d -> all_recorded (sequential_animation d).
Proof.
  intros H. unfold sequential_animation.
  destruct (animating_all d); [|exact H].
  destruct (paths d) as [|cur rest] eqn:Hp; [exact H|].
  destruct (state cur); try exact H.
  destruct (remaining_paths d) as [|next remaining1] eqn:Hr;
    split_stored; rewrite Hp, ?Hr in H; destruct H as (H1 & H2 & H3);
    inversion H1; subst.
  - repeat split; auto; constructor; auto.
  - inversion H3; subst.
    repeat split; auto; constructor; auto using restart_recorded.
Qed.

Lemma frame_update_recorded (d d' : FourierDrawing) :
  frame_update d = Some d' -> all_recorded d -> all_recorded d'.
Proof.
  unfold frame_update.
  destruct (animate_paths (paths d) (animation_speed d)) as [ps|] eqn:Hps;
    [|discriminate].
  intros E H. inversion E; subst. apply sequential_animation_recorded.
  split_stored. destruct H as (H1 & H2 & H3). repeat split; auto.
  eapply animate_paths_recorded; eassumption.
Qed.

Lemma handle_event_recorded (s : MainState) (e : Event) :
  all_recorded (main_drawing s) ->
  all_recorded (main_drawing (handle_event s e)).
Proof.
  intros H. unfold handle_event.
  destruct e as [|[]|button on_help|button|y|]; cbn [main_drawing];
    auto using key_clear_recorded, key_space_recorded.
  - destruct (show_help (main_drawing s)).
    + destruct on_help; cbn [main_drawing]; exact H.
    + destruct (button =? 1)%Z; cbn [main_drawing];
        [apply start_new_path_recorded; exact H|].
      destruct (button =? 3)%Z; [|exact H].
      destruct (animating_all (main_drawing s)
                || any_animating (paths (main_drawing s)));
        cbn [main_drawing];
        auto using complete_all_animations_recorded, start_new_path_recorded.
  - destruct ((button =? 1)%Z || (button =? 3)%Z); cbn [main_drawing];
      auto using finish_current_path_recorded.
Qed.

(** Along every run of [main], the paths a drawing holds are past their
    recording. *)
Lemma main_iteration_recorded (s s' : MainState) (events : list Event)
    (mouse : Z * Z) (now : flt) :
  main_iteration s events mouse now = Some s' ->
  all_recorded (main_drawing s) -> all_recorded (main_drawing s').
Proof.
  unfold main_iteration. intros E H.
  assert (H1 : all_recorded (main_drawing (fold_left handle_event events s))).
  { clear E. revert s H. induction events as [|e events IH]; intros s H;
      cbn [fold_left]; [exact H|].
    apply IH. apply handle_event_recorded. exact H. }
  set (s1 := fold_left handle_event events s) in *.
  assert (H2 : all_recorded (main_drawing (record_mouse s1 mouse now))).
  { unfold record_mouse. destruct (drawing_active s1); [|exact H1].
    destruct (current_path (main_drawing s1)); exact H1. }
  destruct (frame_update (main_drawing (record_mouse s1 mouse now)))
    as [d|] eqn:Hd; [|discriminate].
  inversion E; subst. cbn [main_drawing].
  eapply frame_update_recorded; eassumption.
Qed.

Lemma main_iteration_idle (s : MainState) (mouse : Z * Z) (now : flt) :
  drawing_active s = false ->
  main_iteration s [] mouse now
  = option_map (fun d => mkMainState d (running s) false)
      (frame_update (main_drawing s)).
Proof.
  intros H. unfold main_iteration, record_mouse. cbn [fold_left].
  rewrite H. destruct (frame_update (main_drawing s)); cbn; rewrite ?H;
    reflexivity.
Qed.

End LoopFacts.

Section ReplayFacts.
Context {A : Arith}.

Lemma frames_to_complete_finishes (fuel : nat) (p : Path) (speed : flt)
    (n : nat) (q : Path) :
  frames_to_complete fuel p speed = Some (n, q) -> finishes speed p n q.
Proof.
  revert p n q. induction fuel as [|fuel IH]; intros p n q; cbn;
    [discriminate|].
  destruct (state p) eqn:Hp; try discriminate.
  destruct (animate p speed) as [p'|] eqn:Ha; try discriminate.
  destruct (state p') eqn:Hp'; try discriminate.
  - destruct (frames_to_complete fuel p' speed) as [[m r]|] eqn:Hf;
      try discriminate.
    intros E. inversion E; subst.
    eapply finishes_step; eauto.
  - intros E. inversion E; subst. apply finishes_last; assumption.
Qed.

Lemma finishes_within_finishes (fuel : nat) (p : Path) (speed : flt) :
  finishes_within fuel p speed = true ->
  exists n q, finishes speed p n q.
Proof.
  unfold finishes_within.
  destruct (frames_to_complete fuel p speed) as [[n q]|] eqn:E;
    [|discriminate].
  intros _. exists n, q. eapply frames_to_complete_finishes. exact E.
Qed.

Lemma animate_keeps (p q : Path) (speed : flt) :
  animate p speed = Some q ->
  raw_points q = raw_points p /\ epicycles q = epicycles p.
Proof.
  unfold animate. destruct (state p).
  - intros E. inversion E. auto.
  - destruct (time_step _ speed) as [dt|]; [|discriminate].
    match goal with |- context [if ?b then _ else _] => destruct b end;
      intros E; inversion E; cbn; auto.
  - intros E. inversion E. auto.
Qed.


Lemma with_paths_eta (d : FourierDrawing) (ps : list Path) :
  paths d = ps -> with_paths d ps = d.
Proof. destruct d. cbn. intros ->. reflexivity. Qed.

Lemma frame_update_single (d : FourierDrawing) (cur q : Path) :
  paths d = [cur] -> state cur = animating ->
  animate cur (animation_speed d) = Some q ->
  frame_update d = Some (sequential_animation (with_paths d [q])).
Proof.
  intros Hp Hs Ha. unfold frame_update. rewrite Hp.
  cbn [animate_paths]. rewrite Hs, Ha. reflexivity.
Qed.

Lemma sequential_animation_going (d : FourierDrawing) (q : Path) :
  state q = animating ->
  sequential_animation (with_paths d [q]) = with_paths d [q].
Proof.
  intros Hq. unfold sequential_animation. cbn.
  destruct (animating_all d); [|reflexivity]. rewrite Hq. reflexivity.
Qed.



Lemma firstn_length_app {X : Type} (l1 l2 : list X) :
  firstn (length l1) (l1 ++ l2) = l1.
Proof. induction l1 as [|x l1 IH]; cbn; [reflexivity|]. rewrite IH. reflexivity. Qed.


Lemma no_animating_filter (l : list Path) :
  Forall (fun p => state p = complete) l ->
  filter (fun p => PathState_eqb (state p) animating) l = [].
Proof.
  induction 1 as [|p l Hp Hl IH]; cbn; [reflexivity|].
  rewrite Hp. cbn. exact IH.
Qed.

Lemma replayed_complete (l done : list Path) :
  Forall2 replayed l done -> Forall (fun p => state p = complete) done.
Proof.
  induction 1 as [|p q l done Hpq Hl IH]; constructor; [apply Hpq|exact IH].
Qed.

Lemma animating_count_one (d : FourierDrawing) (cur : Path) :
  paths d = [cur] -> state cur = animating ->
  Forall (fun p => state p = complete) (completed_paths d) ->
  Forall (fun p => state p = complete) (remaining_paths d) ->
  animating_count d = 1%nat.
Proof.
  intros Hp Hc Hd Hr. unfold animating_count.
  rewrite Hp, !filter_app, (no_animating_filter Hd), (no_animating_filter Hr).
  cbn. rewrite Hc. reflexivity.
Qed.



End ReplayFacts.

Section ReplayTheorem.
Context {A : Arith}.

End ReplayTheorem.

(** Boolean checks of the hypotheses above, for concrete drawings. *)

Section Checks.

Context {A : Arith}.

Lemma all_complete_check (l : list Path) :
  forallb (fun p => PathState_eqb (state p) complete) l = true ->
  Forall (fun p => state p = complete) l.
Proof.
  induction l as [|p l IH]; cbn; intros H; constructor;
    apply andb_prop in H; destruct H as [H1 H2]; [|apply IH; exact H2].
  destruct (state p); (reflexivity || discriminate).
Qed.

Lemma all_recorded_check (l : list Path) :
  forallb (fun p => negb (PathState_eqb (state p) drawing)) l = true ->
  Forall recorded l.
Proof.
  induction l as [|p l IH]; cbn; intros H; constructor;
    apply andb_prop in H; destruct H as [H1 H2]; [|apply IH; exact H2].
  unfold recorded. destruct (state p); (discriminate || congruence).
Qed.

Lemma all_finish_check (fuel : nat) (speed : flt) (l : list Path) :
  forallb (fun p => finishes_within fuel (restart p) speed) l = true ->
  Forall (fun p => exists n q, finishes speed (restart p) n q) l.
Proof.
  induction l as [|p l IH]; cbn; intros H; constructor;
    apply andb_prop in H; destruct H as [H1 H2]; [|apply IH; exact H2].
  eapply finishes_within_finishes. exact H1.
Qed.

End Checks.

(** ** The order of binary64 numbers *)

Module FloatOrder.

Local Open Scope Z_scope.

Definition sf_ordered (s : spec_float) : bool :=
  match s with S754_nan => false | _ => true end.

Definition sf_rank (s : spec_float) : Z * Z * Z :=
  match s with
  | S754_nan => (0, 0, 0)
  | S754_zero _ => (0, 0, 0)
  | S754_infinity false => (2, 0, 0)
  | S754_infinity true => (-2, 0, 0)
  | S754_finite false m e => (1, e, Zpos m)
  | S754_finite true m e => (-1, - e, Zneg m)
  end.

Definition rank_compare (a b : Z * Z * Z) : comparison :=
  match fst (fst a) ?= fst (fst b) with
  | Eq =>
      match snd (fst a) ?= snd (fst b) with
      | Eq => snd a ?= snd b
      | c => c
      end
  | c => c
  end.

Lemma SFcompare_rank (s1 s2 : spec_float) :
  SFcompare s1 s2
  = if sf_ordered s1 && sf_ordered s2
    then Some (rank_compare (sf_rank s1) (sf_rank s2)) else None.
Proof.
  destruct s1 as [[]|[]| |[] m1 e1], s2 as [[]|[]| |[] m2 e2];
    try reflexivity; cbn -[Z.compare].
  unfold rank_compare; cbn [fst snd sf_rank].
  rewrite Z.compare_refl, Z.compare_opp, (Z.compare_antisym e1 e2).
  destruct (e1 ?= e2); cbn [CompOpp]; try reflexivity.
Qed.

Definition rank (x : float) : Z * Z * Z := sf_rank (Prim2SF x).
Definition ordered (x : float) : bool := sf_ordered (Prim2SF x).

Definition rank_lt (a b : Z * Z * Z) : Prop :=
  fst (fst a) < fst (fst b)
  \/ (fst (fst a) = fst (fst b)
      /\ (snd (fst a) < snd (fst b)
          \/ (snd (fst a) = snd (fst b) /\ snd a < snd b))).

Lemma rank_compare_Lt a b : rank_compare a b = Lt <-> rank_lt a b.
Proof.
  unfold rank_compare, rank_lt.
  destruct (Z.compare_spec (fst (fst a)) (fst (fst b)));
  destruct (Z.compare_spec (snd (fst a)) (snd (fst b)));
  destruct (Z.compare_spec (snd a) (snd b)); split; intros; try lia; try congruence.
Qed.

Lemma rank_compare_Eq a b : rank_compare a b = Eq <-> a = b.
Proof.
  unfold rank_compare. destruct a as [[a1 a2] a3], b as [[b1 b2] b3]. cbn [fst snd].
  destruct (Z.compare_spec a1 b1);
  destruct (Z.compare_spec a2 b2);
  destruct (Z.compare_spec a3 b3); split; intros E; try congruence; try (inversion E; lia).
Qed.

Lemma ltb_rank (x y : float) :
  (x <? y)%float = true
  <-> ordered x = true /\ ordered y = true /\ rank_lt (rank x) (rank y).
Proof.
  rewrite ltb_spec. unfold SFltb, ordered, rank. rewrite SFcompare_rank.
  rewrite <- rank_compare_Lt.
  destruct (sf_ordered (Prim2SF x)), (sf_ordered (Prim2SF y)); cbn;
    try (split; [discriminate | intros (? & ? & ?); discriminate]).
  destruct (rank_compare _ _); split; intros; try discriminate; try tauto;
   try (destruct H as (_ & _ & H); discriminate).
Qed.

Lemma eqb_rank (x y : float) :
  (x =? y)%float = true
  <-> ordered x = true /\ ordered y = true /\ rank x = rank y.
Proof.
  rewrite eqb_spec. unfold SFeqb, ordered, rank. rewrite SFcompare_rank.
  rewrite <- rank_compare_Eq.
  destruct (sf_ordered (Prim2SF x)), (sf_ordered (Prim2SF y)); cbn;
    try (split; [discriminate | intros (? & ? & ?); discriminate]).
  destruct (rank_compare _ _); split; intros; try discriminate; try tauto;
   try (destruct H as (_ & _ & H); discriminate).
Qed.

Lemma leb_rank (x y : float) :
  (x <=? y)%float = true
  <-> ordered x = true /\ ordered y = true
      /\ (rank_lt (rank x) (rank y) \/ rank x = rank y).
Proof.
  rewrite leb_spec. unfold SFleb, ordered, rank. rewrite SFcompare_rank.
  rewrite <- rank_compare_Lt, <- rank_compare_Eq.
  destruct (sf_ordered (Prim2SF x)), (sf_ordered (Prim2SF y)); cbn;
    try (split; [discriminate | intros (? & ? & ?); discriminate]).
  destruct (rank_compare _ _); split; intros; try discriminate; try tauto;
   try (destruct H as (_ & _ & [H|H]); discriminate).
Qed.

Lemma rank_trichotomy (a b : Z * Z * Z) :
  rank_lt a b \/ a = b \/ rank_lt b a.
Proof.
  unfold rank_lt. destruct a as [[a1 a2] a3], b as [[b1 b2] b3].
  cbn [fst snd].
  destruct (Z.eq_dec a1 b1) as [->|]; [|lia].
  destruct (Z.eq_dec a2 b2) as [->|]; [|lia].
  destruct (Z.eq_dec a3 b3) as [->|]; [|lia].
  right. left. reflexivity.
Qed.

Lemma rank_lt_trans (a b c : Z * Z * Z) :
  rank_lt a b -> rank_lt b c -> rank_lt a c.
Proof. unfold rank_lt. lia. Qed.

Lemma rank_lt_irrefl (a : Z * Z * Z) : ~ rank_lt a a.
Proof. unfold rank_lt. lia. Qed.

Lemma ltb_ordered_r (x y : float) : (x <? y)%float = true -> ordered y = true.
Proof. rewrite ltb_rank. tauto. Qed.

Lemma ltb_trans (x y z : float) :
  (x <? y)%float = true -> (y <? z)%float = true -> (x <? z)%float = true.
Proof.
  rewrite !ltb_rank. intros (Hx & _ & H1) (_ & Hz & H2).
  repeat split; trivial. eapply rank_lt_trans; eassumption.
Qed.

Lemma ltb_eqb_trans (x y z : float) :
  (x <? y)%float = true -> (y =? z)%float = true -> (x <? z)%float = true.
Proof.
  rewrite !ltb_rank, eqb_rank. intros (Hx & _ & H1) (_ & Hz & H2).
  repeat split; trivial. rewrite <- H2. exact H1.
Qed.

Lemma eqb_sym (x y : float) :
  (x =? y)%float = true -> (y =? x)%float = true.
Proof. rewrite !eqb_rank. intros (? & ? & ?). auto. Qed.

Lemma not_ltb_cases (x y : float) :
  ordered x = true -> ordered y = true -> (x <? y)%float = false ->
  (y <? x)%float = true \/ (y =? x)%float = true.
Proof.
  intros Hx Hy Hlt.
  destruct (rank_trichotomy (rank x) (rank y)) as [H|[H|H]].
  - assert (Ht : (x <? y)%float = true) by (apply ltb_rank; auto).
    congruence.
  - right. apply eqb_rank. auto.
  - left. apply ltb_rank. auto.
Qed.

Lemma ltb_leb (x y : float) :
  (x <? y)%float = true -> (x <=? y)%float = true.
Proof. rewrite ltb_rank, leb_rank. tauto. Qed.

End FloatOrder.

Section SortFacts.

Import Binary64 FloatOrder.

Variable L : Libm.
Variable T : Type.
Variable key : T -> float.
Variable idx : T -> Z.

Abbreviation insert := (@insort (binary64 L) T key).
Abbreviation asc := (stable_ascending key idx).
Abbreviation desc := (stable_descending key idx).

Lemma insort_perm (x : T) (l : list T) : Permutation (insert x l) (x :: l).
Proof.
  induction l as [|y l IH]; cbn; [reflexivity|].
  destruct (key x <? key y)%float; [reflexivity|].
  rewrite IH. apply perm_swap.
Qed.

Lemma fold_insort_perm (l acc : list T) :
  Permutation (fold_left (fun a x => insert x a) l acc) (acc ++ l).
Proof.
  revert acc. induction l as [|x l IH]; intros acc; cbn [fold_left].
  - rewrite app_nil_r. reflexivity.
  - rewrite IH, insort_perm. apply Permutation_middle.
Qed.

Lemma list_sort_perm (reverse : bool) (l : list T) :
  Permutation (@list_sort (binary64 L) T key reverse l) l.
Proof.
  unfold list_sort, sort_ascending. destruct reverse.
  - rewrite <- Permutation_rev, fold_insort_perm. cbn.
    symmetry. apply Permutation_rev.
  - rewrite fold_insort_perm. reflexivity.
Qed.

Lemma insort_sorted (x : T) (l : list T) :
  StronglySorted asc l ->
  ordered (key x) = true ->
  Forall (fun y => ordered (key y) = true /\ (idx x < idx y)%Z) l ->
  StronglySorted asc (insert x l).
Proof.
  intros Hs Hx Hl. induction Hs as [|y l Hs IH Hy]; cbn.
  - constructor; constructor.
  - inversion Hl as [|? ? [Hoy Hiy] Hl']; subst.
    destruct (key x <? key y)%float eqn:E.
    + constructor; [constructor; assumption|].
      constructor; [left; exact E|].
      revert Hy. apply Forall_impl. intros z [Hz|[Hz _]]; left.
      * eapply ltb_trans; eassumption.
      * eapply ltb_eqb_trans; eassumption.
    + constructor; [apply IH; assumption|].
      rewrite insort_perm. constructor; [|assumption].
      destruct (not_ltb_cases Hx Hoy E) as [H|H]; [left; exact H|].
      right. split; assumption.
Qed.

Lemma fold_insort_sorted (l acc : list T) :
  StronglySorted asc acc ->
  Forall (fun y => ordered (key y) = true) acc ->
  Forall (fun y => ordered (key y) = true) l ->
  StronglySorted (fun a b => (idx b < idx a)%Z) l ->
  (forall y x, In y acc -> In x l -> (idx x < idx y)%Z) ->
  StronglySorted asc (fold_left (fun a x => insert x a) l acc).
Proof.
  revert acc. induction l as [|x l IH]; intros acc Hs Ha Hl Hd Hc;
    cbn [fold_left]; [exact Hs|].
  inversion Hl as [|? ? Hox Hol]; subst.
  inversion Hd as [|? ? Hd' Hdx]; subst.
  apply IH; trivial.
  - apply insort_sorted; trivial.
    rewrite Forall_forall in *. intros y Hy. split; [auto|].
    apply Hc; [exact Hy|left; reflexivity].
  - rewrite insort_perm. constructor; assumption.
  - intros y z Hy Hz.
    apply (Permutation_in _ (insort_perm x acc)) in Hy.
    destruct Hy as [<-|Hy].
    + rewrite Forall_forall in Hdx. apply Hdx. exact Hz.
    + apply Hc; [exact Hy|right; exact Hz].
Qed.

Lemma StronglySorted_app {X : Type} (R : X -> X -> Prop) (l1 l2 : list X) :
  StronglySorted R l1 -> StronglySorted R l2 ->
  (forall a b, In a l1 -> In b l2 -> R a b) ->
  StronglySorted R (l1 ++ l2).
Proof.
  intros H1 H2 H12. induction H1 as [|a l1 H1 IH Ha]; cbn; [exact H2|].
  constructor.
  - apply IH. intros x y Hx Hy. apply H12; [right; exact Hx|exact Hy].
  - apply Forall_app. split; [exact Ha|].
    rewrite Forall_forall. intros b Hb. apply H12; [left; reflexivity|exact Hb].
Qed.

Lemma StronglySorted_rev {X : Type} (R : X -> X -> Prop) (l : list X) :
  StronglySorted R l -> StronglySorted (fun a b => R b a) (rev l).
Proof.
  intros H. induction H as [|a l H IH Ha]; cbn; [constructor|].
  apply StronglySorted_app; [exact IH|constructor; constructor|].
  intros x y Hx [<-|[]]. rewrite Forall_forall in Ha. apply Ha.
  apply in_rev. exact Hx.
Qed.

Lemma StronglySorted_weaken {X : Type} (R R' : X -> X -> Prop) (l : list X) :
  (forall a b, R a b -> R' a b) ->
  StronglySorted R l -> StronglySorted R' l.
Proof.
  intros HR H. induction H as [|a l H IH Ha]; constructor; [exact IH|].
  revert Ha. apply Forall_impl. intros b. apply HR.
Qed.

Lemma list_sort_reverse_sorted (l : list T) :
  Forall (fun y => ordered (key y) = true) l ->
  StronglySorted (fun a b => (idx a < idx b)%Z) l ->
  StronglySorted desc (@list_sort (binary64 L) T key true l).
Proof.
  intros Ho Hi. unfold list_sort, sort_ascending.
  assert (Hs : StronglySorted asc
                 (fold_left (fun a x => insert x a) (rev l) [])).
  { apply fold_insort_sorted.
    - constructor.
    - constructor.
    - rewrite Forall_forall in *. intros y Hy. apply Ho, in_rev, Hy.
    - apply StronglySorted_rev with (R := fun a b => (idx a < idx b)%Z).
      exact Hi.
    - intros y x []. }
  apply StronglySorted_rev in Hs.
  revert Hs. apply StronglySorted_weaken.
  intros a b [H|[H1 H2]]; [left; exact H|right].
  split; [apply eqb_sym; exact H1|exact H2].
Qed.

End SortFacts.

Section IndexOrder.

Context {A : Arith}.

Lemma py_range_from_lower (start : Z) (count : nat) (x : Z) :
  In x (py_range_from start count) -> (start <= x)%Z.
Proof.
  revert start. induction count as [|c IH]; intros start; cbn; [tauto|].
  intros [<-|H]; [lia|]. apply IH in H. lia.
Qed.

Lemma py_range_from_increasing (start : Z) (count : nat) :
  StronglySorted Z.lt (py_range_from start count).
Proof.
  revert start. induction count as [|c IH]; intros start; cbn;
    constructor; [apply IH|].
  rewrite Forall_forall. intros x Hx.
  apply py_range_from_lower in Hx. lia.
Qed.

Lemma StronglySorted_map {X Y : Type} (R : Y -> Y -> Prop) (f : X -> Y)
    (l : list X) :
  StronglySorted R (map f l) -> StronglySorted (fun a b => R (f a) (f b)) l.
Proof.
  induction l as [|x l IH]; cbn; intros H; constructor;
    inversion H as [|? ? Hs Hf]; subst; [apply IH; exact Hs|].
  rewrite Forall_forall in *. intros y Hy. apply Hf, in_map, Hy.
Qed.

Lemma StronglySorted_filter {X : Type} (R : X -> X -> Prop) (f : X -> bool)
    (l : list X) :
  StronglySorted R l -> StronglySorted R (filter f l).
Proof.
  intros H. induction H as [|a l H IH Ha]; cbn; [constructor|].
  destruct (f a); [|exact IH]. constructor; [exact IH|].
  rewrite Forall_forall in *. intros y Hy. apply Ha.
  apply filter_In in Hy. tauto.
Qed.

Lemma raw_coefficients_increasing (points : list DrawPoint) :
  StronglySorted (fun a b => (fst a < fst b)%Z) (raw_coefficients points).
Proof.
  apply StronglySorted_map with (R := Z.lt) (f := fst).
  unfold raw_coefficients. cbv zeta. rewrite map_map. cbn [fst].
  rewrite map_id. apply py_range_from_increasing.
Qed.

Lemma fourier_epicycles_raw (points : list DrawPoint) :
  fourier_epicycles points
  = list_sort magnitude true
      (filter (fun x => above_threshold (snd x)) (raw_coefficients points)).
Proof.
  unfold fourier_epicycles, raw_coefficients. cbv zeta.
  rewrite fourier_loop_filter. reflexivity.
Qed.

End IndexOrder.

(** ** Facts of the binary64 interpretation *)

Module Binary64Facts.

Import Binary64 FloatOrder.
Local Open Scope float_scope.

(** C2: the stored coefficient list holds exactly the raw pairs whose
    magnitude exceeds 1.0, in descending order of magnitude, two pairs of
    equal magnitude in ascending order of their frequency index. *)
Theorem stored_coefficients_filtered_sorted (L : Libm)
    (p : @Path (binary64 L)) :
  let eps := fourier_epicycles (raw_points p) in
  epicycles (calculate_fourier p)
  = (if (length (raw_points p) <? 2)%nat then epicycles p else eps)
  /\ Permutation eps
       (filter (fun x => 1 <? @magnitude (binary64 L) x) (raw_coefficients (raw_points p)))
  /\ (forall x, In x eps
                <-> In x (raw_coefficients (raw_points p))
                    /\ (1 <? @magnitude (binary64 L) x) = true)
  /\ StronglySorted
       (fun a b =>
          (@magnitude (binary64 L) b <? @magnitude (binary64 L) a) = true
          \/ ((@magnitude (binary64 L) a =? @magnitude (binary64 L) b) = true /\ (fst a < fst b)%Z))
       eps.
Proof.
  cbv zeta. rewrite fourier_epicycles_raw.
  assert (Hperm := list_sort_perm L (@magnitude (binary64 L)) true
    (filter (fun x => above_threshold (snd x))
       (raw_coefficients (raw_points p)))).
  split; [|split; [|split]].
  - unfold calculate_fourier.
    destruct (length (raw_points p) <? 2)%nat; [reflexivity|].
    cbn [epicycles set_epicycles]. apply fourier_epicycles_raw.
  - exact Hperm.
  - intros x. split.
    + intros Hx. apply (Permutation_in _ Hperm) in Hx.
      apply filter_In in Hx. exact Hx.
    + intros Hx. apply (Permutation_in _ (Permutation_sym Hperm)).
      apply filter_In. exact Hx.
  - apply (list_sort_reverse_sorted L (@magnitude (binary64 L)) fst).
    + rewrite Forall_forall. intros x Hx. apply filter_In in Hx.
      destruct Hx as [_ Hx]. apply ltb_ordered_r in Hx. exact Hx.
    + apply StronglySorted_filter, raw_coefficients_increasing.
Qed.

End Binary64Facts.

(** ** The animation speed *)

Module SpeedFacts.

Import Binary64 FloatOrder.
Local Open Scope float_scope.

Lemma adjust_speed_cases (L : Libm) (s : float) (y : Z) :
  @adjust_speed (binary64 L) s y
  = if 0x1.999999999999ap-4 <? requested_speed s y
    then (if requested_speed s y <? 1 then requested_speed s y else 1)
    else 0x1.999999999999ap-4.
Proof.
  unfold adjust_speed, py_min, py_max, SPEED_INCREMENT, requested_speed.
  cbn [fltb fadd fmul of_int lit_0_1 binary64].
  change (float_of_int 1) with 1.
  destruct (0x1.999999999999ap-4 <? s + float_of_int y * 0x1.999999999999ap-4);
    reflexivity.
Qed.

Lemma adjust_speed_in_range (L : Libm) (s : float) (y : Z) :
  in_speed_range (@adjust_speed (binary64 L) s y).
Proof.
  rewrite adjust_speed_cases. unfold in_speed_range.
  destruct (0x1.999999999999ap-4 <? requested_speed s y) eqn:E1;
    [|split; reflexivity].
  destruct (requested_speed s y <? 1) eqn:E2; [|split; reflexivity].
  split; apply ltb_leb; assumption.
Qed.

Lemma wheel_sequence_in_range (L : Libm) (ys : list Z)
    (d : @FourierDrawing (binary64 L)) :
  in_speed_range (animation_speed d) ->
  in_speed_range (animation_speed (fold_left mouse_wheel ys d)).
Proof.
  revert d. induction ys as [|y ys IH]; intros d Hd; cbn [fold_left];
    [exact Hd|].
  apply IH. apply adjust_speed_in_range.
Qed.

(** C9: starting from the default speed 1.0, the speed lies in
    [[0.1, 1.0]] after every wheel event of every sequence of events; an
    event always sets the speed: to the requested value when that lies
    strictly between the bounds, to the nearer bound otherwise. *)
Theorem speed_always_clamped (L : Libm) (ys : list Z) :
  in_speed_range (@DEFAULT_SPEED (binary64 L))
  /\ in_speed_range
       (animation_speed
          (fold_left mouse_wheel ys (@new_FourierDrawing (binary64 L))))
  /\ forall (d : @FourierDrawing (binary64 L)) (y : Z),
       in_speed_range (animation_speed (mouse_wheel d y))
       /\ animation_speed (mouse_wheel d y)
          = (if 0x1.999999999999ap-4 <? requested_speed (animation_speed d) y
             then (if requested_speed (animation_speed d) y <? 1
                   then requested_speed (animation_speed d) y
                   else 1)
             else 0x1.999999999999ap-4).
Proof.
  assert (H1 : in_speed_range (@DEFAULT_SPEED (binary64 L)))
    by (split; reflexivity).
  split; [exact H1|]. split.
  - apply wheel_sequence_in_range. exact H1.
  - intros d y. split.
    + apply adjust_speed_in_range.
    + apply adjust_speed_cases.
Qed.

End SpeedFacts.

(** ** The model on the concrete drawings *)

Module ScenarioFacts.

Import Binary64 Scenario.
Local Open Scope float_scope.

(** C5, the ten-point scenario: whatever the library functions are, a path
    of ten points stepped at speed 1.0 is still animating after ten frames,
    its time being [0.9999999999999999], and is complete after the
    eleventh. *)
Theorem ten_points_complete_at_frame_eleven (L : Libm) :
  option_map state
    (@animate_frames (binary64 L) 10 (finished_path ten_points) DEFAULT_SPEED)
  = Some animating
  /\ option_map time
       (@animate_frames (binary64 L) 10 (finished_path ten_points)
          DEFAULT_SPEED)
     = Some 0x1.fffffffffffffp-1
  /\ option_map state
       (@animate_frames (binary64 L) 11 (finished_path ten_points)
          DEFAULT_SPEED)
     = Some complete.
Proof. vm_compute. repeat split. Qed.

(** C7 as stated fails when force-complete arrives before the first
    animation frame of a path: the path is complete with an empty trace. *)
Lemma force_complete_before_first_frame :
  (exists p, In p (paths just_finished) /\ state p = animating)
  /\ ~ Forall (fun q => state q = complete /\ animation_points q <> [])
         (paths (complete_all_animations just_finished)).
Proof.
  split.
  - eexists. split; [left; reflexivity|reflexivity].
  - intros H. inversion H as [|q l [_ Hq] _]; subst.
    apply Hq. reflexivity.
Qed.

(** The state of the lemma above arises in [main]: when the release that
    ends a recording and a right click come in one batch of events, the
    path is complete with an empty trace at the end of the iteration. *)
Lemma event_loop_reaches_empty_trace :
  option_map
    (fun s =>
       map (fun p => (PathState_eqb (state p) complete,
                      length (animation_points p), length (raw_points p)))
           (paths (main_drawing s)))
    click_release_click
  = Some [(true, 0%nat, 2%nat)].
Proof. vm_compute. reflexivity. Qed.


Lemma complete_all_animations_effect_witness :
  Forall recorded (active_paths mid_replay)
  /\ Forall (fun q => state q = complete)
       (paths (complete_all_animations mid_replay))
  /\ length (paths (complete_all_animations mid_replay)) = 2%nat.
Proof.
  assert (H : Forall recorded (active_paths mid_replay))
    by (apply all_recorded_check; vm_compute; reflexivity).
  split; [exact H|].
  destruct (@complete_all_animations_effect A64 mid_replay H)
    as (_ & H2 & _).
  split; [exact H2|]. vm_compute. reflexivity.
Defined.

Lemma finish_current_path_cases_witness :
  current_path (with_current (recorded_path two_points))
  = Some (recorded_path two_points)
  /\ current_path (finish_current_path (with_current (recorded_path two_points)))
     = None.
Proof.
  split; [reflexivity|].
  apply (@finish_current_path_cases A64
           (with_current (recorded_path two_points))
           (recorded_path two_points) eq_refl).
Defined.

End ScenarioFacts.

(** ** Facts of the exact interpretation *)

Module ExactFacts.
Import Reals Lra Exact.
Local Open Scope R_scope.

Lemma Rsum_ext (f g : nat -> R) (n : nat) :
  (forall i, (i < n)%nat -> f i = g i) -> Rsum f n = Rsum g n.
Proof.
  induction n as [|n IH]; intros H; cbn; [reflexivity|].
  rewrite IH, (H n) by (intros; auto with arith). reflexivity.
Qed.

Lemma Rsum_plus (f g : nat -> R) (n : nat) :
  Rsum (fun i => f i + g i) n = Rsum f n + Rsum g n.
Proof. induction n as [|n IH]; cbn; [ring|]. rewrite IH. ring. Qed.

Lemma Rsum_minus (f g : nat -> R) (n : nat) :
  Rsum (fun i => f i - g i) n = Rsum f n - Rsum g n.
Proof. induction n as [|n IH]; cbn; [ring|]. rewrite IH. ring. Qed.

Lemma Rsum_scal_l (c : R) (f : nat -> R) (n : nat) :
  Rsum (fun i => c * f i) n = c * Rsum f n.
Proof. induction n as [|n IH]; cbn; [ring|]. rewrite IH. ring. Qed.

Lemma Rsum_scal_r (c : R) (f : nat -> R) (n : nat) :
  Rsum (fun i => f i * c) n = Rsum f n * c.
Proof. induction n as [|n IH]; cbn; [ring|]. rewrite IH. ring. Qed.

Lemma Rsum_zero (n : nat) : Rsum (fun _ => 0) n = 0.
Proof. induction n as [|n IH]; cbn; [reflexivity|]. rewrite IH. ring. Qed.

Lemma Rsum_const (c : R) (n : nat) : Rsum (fun _ => c) n = INR n * c.
Proof.
  induction n as [|n IH]; [cbn; ring|].
  rewrite S_INR. cbn [Rsum]. rewrite IH. ring.
Qed.

Lemma Rsum_swap (f : nat -> nat -> R) (n m : nat) :
  Rsum (fun i => Rsum (fun j => f i j) m) n
  = Rsum (fun j => Rsum (fun i => f i j) n) m.
Proof.
  induction n as [|n IH]; cbn [Rsum].
  - rewrite Rsum_zero. reflexivity.
  - rewrite IH, <- Rsum_plus. reflexivity.
Qed.

(** A sum whose terms vanish away from the index [k]. *)
Lemma Rsum_single (f : nat -> R) (n k : nat) :
  (k < n)%nat -> (forall j, (j < n)%nat -> j <> k -> f j = 0) ->
  Rsum f n = f k.
Proof.
  induction n as [|n IH]; intros Hk H; [lia|]. cbn [Rsum].
  destruct (Nat.eq_dec k n) as [->|Hne].
  - rewrite (Rsum_ext f (fun _ => 0)), Rsum_zero; [ring|].
    intros i Hi. apply H; lia.
  - rewrite IH, (H n) by (try lia; intros; apply H; lia). ring.
Qed.

Lemma Rsum_shift (f : nat -> R) (n : nat) :
  Rsum (fun i => f (S i)) n = Rsum f n - f O + f n.
Proof. induction n as [|n IH]; cbn [Rsum]; [ring|]. rewrite IH. ring. Qed.

Lemma twiddle_exact (n k N : Z) :
  IZR N <> 0 ->
  @twiddle exact n k N
  = (cos (- (2 * PI * IZR n * IZR k / IZR N)),
     sin (- (2 * PI * IZR n * IZR k / IZR N))).
Proof.
  intros HN. unfold twiddle, c_of_int, c_of_flt, lit_2j.
  cbn [np_exp cdiv cmul cneg complex_ of_int math_pi exact].
  unfold Cexp, Cdiv, Cmul, Cneg. cbn [fst snd].
  match goal with |- (exp ?a * cos ?b, exp ?a * sin ?b) = _ =>
    assert (Ha : a = 0) by (field; exact HN);
    assert (Hb : b = - (2 * PI * IZR n * IZR k / IZR N)) by (field; exact HN)
  end.
  rewrite Ha, Hb, exp_0. f_equal; ring.
Qed.

Lemma sqrt_sum_squares_pos (x y : R) : x <> 0 -> 0 < sqrt (x * x + y * y).
Proof. intros Hx. apply sqrt_lt_R0. nra. Qed.

Lemma sqrt_one_plus_ratio (x y : R) :
  x <> 0 -> sqrt (1 + (y / x)²) = sqrt (x * x + y * y) / Rabs x.
Proof.
  intros Hx.
  assert (Habs : 0 < Rabs x) by (apply Rabs_pos_lt; exact Hx).
  replace (1 + (y / x)²) with ((x * x + y * y) / (Rabs x * Rabs x)).
  - rewrite sqrt_div_alt by nra. rewrite sqrt_square by lra. reflexivity.
  - unfold Rsqr. replace (Rabs x * Rabs x) with (x * x).
    + field. exact Hx.
    + unfold Rabs. destruct (Rcase_abs x); ring.
Qed.

(** The polar form: [|z| cos (arg z) = re z] and [|z| sin (arg z) = im z]. *)
Lemma polar_form (x y : R) :
  Cabs (x, y) * cos (arctan2 y x) = x /\ Cabs (x, y) * sin (arctan2 y x) = y.
Proof.
  unfold Cabs, arctan2. cbn [fst snd].
  destruct (Rlt_dec 0 x) as [Hpos|Hnpos].
  - assert (Hx : x <> 0) by lra.
    pose proof (sqrt_sum_squares_pos y Hx) as Hr.
    rewrite cos_atan, sin_atan, (sqrt_one_plus_ratio y Hx).
    rewrite (Rabs_pos_eq x) by lra. split; field; lra.
  - destruct (Rlt_dec x 0) as [Hneg|Hnneg].
    + assert (Hx : x <> 0) by lra.
      pose proof (sqrt_sum_squares_pos y Hx) as Hr.
      destruct (Rle_dec 0 y).
      * rewrite neg_cos, neg_sin, cos_atan, sin_atan,
          (sqrt_one_plus_ratio y Hx).
        rewrite (Rabs_left x) by lra. split; field; lra.
      * replace (atan (y / x) - PI) with (- (- atan (y / x) + PI)) by ring.
        rewrite cos_neg, sin_neg, neg_cos, neg_sin, cos_neg, sin_neg,
          cos_atan, sin_atan, (sqrt_one_plus_ratio y Hx).
        rewrite (Rabs_left x) by lra. split; field; lra.
    + assert (Hx : x = 0) by lra. subst x.
      replace (0 * 0 + y * y) with (y * y) by ring.
      destruct (Rlt_dec 0 y).
      * rewrite sqrt_square by lra. rewrite cos_PI2, sin_PI2. split; ring.
      * destruct (Rlt_dec y 0).
        -- replace (y * y) with ((- y) * (- y)) by ring.
           rewrite sqrt_square by lra.
           rewrite cos_neg, sin_neg, cos_PI2, sin_PI2. split; ring.
        -- assert (Hy : y = 0) by lra. subst y.
           rewrite Rmult_0_r, sqrt_0. split; ring.
Qed.

Lemma cos_sin_period_Z (x : R) (m : Z) :
  cos (x + 2 * PI * IZR m) = cos x /\ sin (x + 2 * PI * IZR m) = sin x.
Proof.
  destruct (Z_le_gt_dec 0 m) as [Hm|Hm].
  - rewrite <- (Z2Nat.id m Hm), <- INR_IZR_INZ.
    replace (x + 2 * PI * INR (Z.to_nat m))
      with (x + 2 * INR (Z.to_nat m) * PI) by ring.
    split; [apply cos_period|apply sin_period].
  - rewrite <- (cos_period (x + 2 * PI * IZR m) (Z.to_nat (- m))).
    rewrite <- (sin_period (x + 2 * PI * IZR m) (Z.to_nat (- m))).
    rewrite INR_IZR_INZ, Z2Nat.id, opp_IZR by lia.
    replace (x + 2 * PI * IZR m + 2 * - IZR m * PI) with x by ring.
    split; reflexivity.
Qed.

Lemma cos_below_one (t : R) : 0 < t < 2 * PI -> cos t < 1.
Proof.
  intros Ht. replace t with (2 * (t / 2)) by field.
  rewrite cos_2a_sin.
  assert (Hs : 0 < sin (t / 2)) by (apply sin_gt_0; lra).
  nra.
Qed.

Lemma cos_below_one_sym (t : R) : t <> 0 -> - (2 * PI) < t < 2 * PI -> cos t < 1.
Proof.
  intros Hne Ht. destruct (Rlt_dec 0 t).
  - apply cos_below_one. lra.
  - rewrite <- cos_neg. apply cos_below_one. lra.
Qed.

(** The sum of the [N] consecutive powers [a, a+1, ..] of an [N]-th root
    of unity [exp(2 pi i m / N)], [|m| < N]: [N] when [m = 0], else [0]. *)
Lemma roots_of_unity_sum (a m : Z) (N : nat) :
  (0 < N)%nat -> (- Z.of_nat N < m < Z.of_nat N)%Z ->
  Rsum (fun i => cos (2 * PI * IZR (a + Z.of_nat i) * IZR m / INR N)) N
  = (if Z.eq_dec m 0 then INR N else 0)
  /\ Rsum (fun i => sin (2 * PI * IZR (a + Z.of_nat i) * IZR m / INR N)) N
     = 0.
Proof.
  intros HN Hm.
  assert (HNR : 0 < INR N) by (apply lt_0_INR; exact HN).
  destruct (Z.eq_dec m 0) as [->|Hne].
  - split.
    + rewrite (Rsum_ext _ (fun _ => 1)), Rsum_const; [ring|].
      intros i _.
      replace (2 * PI * IZR (a + Z.of_nat i) * 0 / INR N) with 0
        by (field; lra).
      apply cos_0.
    + rewrite (Rsum_ext _ (fun _ => 0)), Rsum_zero; [reflexivity|].
      intros i _.
      replace (2 * PI * IZR (a + Z.of_nat i) * 0 / INR N) with 0
        by (field; lra).
      apply sin_0.
  - set (t := 2 * PI * IZR m / INR N).
    set (th := fun i : nat => IZR a * t + INR i * t).
    assert (Hth : forall i,
              2 * PI * IZR (a + Z.of_nat i) * IZR m / INR N = th i).
    { intros i. unfold th, t. rewrite plus_IZR, <- INR_IZR_INZ.
      field. lra. }
    rewrite (Rsum_ext _ (fun i => cos (th i))) by (intros; f_equal; apply Hth).
    rewrite (Rsum_ext (fun i => sin _) (fun i => sin (th i)))
      by (intros; f_equal; apply Hth).
    set (C := Rsum (fun i => cos (th i)) N).
    set (S' := Rsum (fun i => sin (th i)) N).
    assert (Hstep : forall i, th (S i) = th i + t).
    { intros i. unfold th. rewrite S_INR. ring. }
    assert (Hper : th N = th O + 2 * PI * IZR m).
    { unfold th, t. cbn [INR]. field. lra. }
    assert (HC : Rsum (fun i => cos (th (S i))) N = C).
    { rewrite (Rsum_shift (fun i => cos (th i))). fold C.
      rewrite Hper. destruct (cos_sin_period_Z (th O) m) as [-> _]. ring. }
    assert (HS : Rsum (fun i => sin (th (S i))) N = S').
    { rewrite (Rsum_shift (fun i => sin (th i))). fold S'.
      rewrite Hper. destruct (cos_sin_period_Z (th O) m) as [_ ->]. ring. }
    assert (HC' : Rsum (fun i => cos (th (S i))) N = C * cos t - S' * sin t).
    { rewrite (Rsum_ext _ (fun i => cos (th i) * cos t - sin (th i) * sin t)).
      - rewrite Rsum_minus, !Rsum_scal_r. reflexivity.
      - intros i _. rewrite Hstep. apply cos_plus. }
    assert (HS' : Rsum (fun i => sin (th (S i))) N = S' * cos t + C * sin t).
    { rewrite (Rsum_ext _ (fun i => sin (th i) * cos t + cos (th i) * sin t)).
      - rewrite Rsum_plus, !Rsum_scal_r. reflexivity.
      - intros i _. rewrite Hstep. apply sin_plus. }
    assert (Hcos : cos t < 1).
    { apply cos_below_one_sym.
      - unfold t. intros H0.
        assert (IZR m = 0).
        { apply Rmult_eq_reg_l with (2 * PI / INR N).
          - rewrite Rmult_0_r. rewrite <- H0. field. lra.
          - pose proof PI_RGT_0. apply Rgt_not_eq.
            apply Rdiv_lt_0_compat; lra. }
        apply Hne. apply eq_IZR. assumption.
      - unfold t. pose proof PI_RGT_0 as Hpi.
        assert (H1 : - INR N < IZR m < INR N).
        { rewrite INR_IZR_INZ, <- opp_IZR. split; apply IZR_lt; lia. }
        split.
        + apply Rmult_lt_reg_r with (INR N); [exact HNR|].
          replace (2 * PI * IZR m / INR N * INR N) with (2 * PI * IZR m)
            by (field; lra).
          nra.
        + apply Rmult_lt_reg_r with (INR N); [exact HNR|].
          replace (2 * PI * IZR m / INR N * INR N) with (2 * PI * IZR m)
            by (field; lra).
          nra. }
    pose proof (sin2_cos2 t) as Hsc. unfold Rsqr in Hsc.
    rewrite HC in HC'. rewrite HS in HS'.
    assert (H2 : 2 * (1 - cos t) * C = 0) by nra.
    assert (H3 : 2 * (1 - cos t) * S' = 0) by nra.
    split; nra.
Qed.

Lemma Rsum_combine (F G : nat -> R) (c s d : R) (n : nat) :
  d <> 0 ->
  Rsum F n / d * c - Rsum G n / d * s
  = Rsum (fun j => (F j * c - G j * s) / d) n.
Proof.
  intros Hd. induction n as [|n IH]; cbn [Rsum]; [field; exact Hd|].
  rewrite <- IH. field. exact Hd.
Qed.

Lemma Rsum_combine_plus (F G : nat -> R) (c s d : R) (n : nat) :
  d <> 0 ->
  Rsum F n / d * s + Rsum G n / d * c
  = Rsum (fun j => (F j * s + G j * c) / d) n.
Proof.
  intros Hd. induction n as [|n IH]; cbn [Rsum]; [field; exact Hd|].
  rewrite <- IH. field. exact Hd.
Qed.

Lemma Rsum_weighted_minus (u v : nat -> R) (r m d : R) (n : nat) :
  d <> 0 ->
  Rsum (fun i => (r * u i - m * v i) / d) n
  = (r * Rsum u n - m * Rsum v n) / d.
Proof.
  intros Hd. induction n as [|n IH]; cbn [Rsum]; [field; exact Hd|].
  rewrite IH. field. exact Hd.
Qed.

Lemma Rsum_weighted_plus (u v : nat -> R) (r m d : R) (n : nat) :
  d <> 0 ->
  Rsum (fun i => (r * u i + m * v i) / d) n
  = (r * Rsum u n + m * Rsum v n) / d.
Proof.
  intros Hd. induction n as [|n IH]; cbn [Rsum]; [field; exact Hd|].
  rewrite IH. field. exact Hd.
Qed.

(** The inverse summation of the coefficients of [N] samples [re + i im],
    taken over the frequency indices [a, a+1, .., a+N-1] at the instant
    [k / N], yields the sample [k]. *)
Lemma inverse_sum (N k : nat) (a : Z) (re im : nat -> R) :
  (k < N)%nat ->
  let th := fun (i j : nat) =>
              - (2 * PI * IZR (a + Z.of_nat i) * INR j / INR N) in
  let ph := fun i : nat =>
              2 * PI * IZR (a + Z.of_nat i) * (INR k / INR N) in
  let cr := fun i : nat =>
              Rsum (fun j => re j * cos (th i j) - im j * sin (th i j)) N
              / INR N in
  let ci := fun i : nat =>
              Rsum (fun j => re j * sin (th i j) + im j * cos (th i j)) N
              / INR N in
  Rsum (fun i => cr i * cos (ph i) - ci i * sin (ph i)) N = re k
  /\ Rsum (fun i => cr i * sin (ph i) + ci i * cos (ph i)) N = im k.
Proof.
  intros Hk th ph cr ci.
  assert (HN : INR N <> 0) by (apply not_0_INR; lia).
  set (B := fun (i j : nat) =>
              2 * PI * IZR (a + Z.of_nat i)
              * IZR (Z.of_nat k - Z.of_nat j) / INR N).
  assert (HB : forall i j, th i j + ph i = B i j).
  { intros i j. unfold th, ph, B. rewrite minus_IZR, <- !INR_IZR_INZ.
    field. exact HN. }
  assert (Hortho : forall j, (j < N)%nat ->
            Rsum (fun i => cos (B i j)) N = (if Nat.eq_dec j k then INR N else 0)
            /\ Rsum (fun i => sin (B i j)) N = 0).
  { intros j Hj.
    destruct (roots_of_unity_sum a (m := Z.of_nat k - Z.of_nat j) (N := N))
      as [H1 H2]; [lia|lia|].
    unfold B. rewrite H1, H2. split; [|reflexivity].
    destruct (Z.eq_dec (Z.of_nat k - Z.of_nat j) 0), (Nat.eq_dec j k);
      try reflexivity; lia. }
  split.
  - rewrite (Rsum_ext _ (fun i =>
               Rsum (fun j => (re j * cos (B i j) - im j * sin (B i j))
                              / INR N) N)).
    + rewrite Rsum_swap.
      rewrite (Rsum_single _ (k := k)); [| exact Hk |].
      * rewrite Rsum_weighted_minus by exact HN.
        destruct (Hortho k Hk) as [-> ->].
        destruct (Nat.eq_dec k k); [|contradiction]. field. exact HN.
      * intros j Hj Hne.
        rewrite Rsum_weighted_minus by exact HN.
        destruct (Hortho j Hj) as [-> ->].
        destruct (Nat.eq_dec j k); [contradiction|]. field. exact HN.
    + intros i _. unfold cr, ci. rewrite Rsum_combine by exact HN.
      apply Rsum_ext. intros j _. rewrite <- HB, cos_plus, sin_plus.
      field. exact HN.
  - rewrite (Rsum_ext _ (fun i =>
               Rsum (fun j => (re j * sin (B i j) + im j * cos (B i j))
                              / INR N) N)).
    + rewrite Rsum_swap.
      rewrite (Rsum_single _ (k := k)); [| exact Hk |].
      * rewrite Rsum_weighted_plus by exact HN.
        destruct (Hortho k Hk) as [-> ->].
        destruct (Nat.eq_dec k k); [|contradiction]. field. exact HN.
      * intros j Hj Hne.
        rewrite Rsum_weighted_plus by exact HN.
        destruct (Hortho j Hj) as [-> ->].
        destruct (Nat.eq_dec j k); [contradiction|]. field. exact HN.
    + intros i _. unfold cr, ci. rewrite Rsum_combine_plus by exact HN.
      apply Rsum_ext. intros j _. rewrite <- HB, cos_plus, sin_plus.
      field. exact HN.
Qed.

Lemma fold_pair_seq (u v : nat -> R) (n : nat) (c : R * R) :
  fold_left (fun acc i => (fst acc + u i, snd acc + v i)) (seq 0 n) c
  = (fst c + Rsum u n, snd c + Rsum v n).
Proof.
  induction n as [|n IH].
  - destruct c. cbn. f_equal; ring.
  - rewrite seq_S, fold_left_app, IH. cbn. f_equal; ring.
Qed.

Lemma epicycle_vector_exact (n : Z) (c : R * R) (t : R) :
  @epicycle_vector exact (n, c) t
  = (fst c * cos (2 * PI * IZR n * t) - snd c * sin (2 * PI * IZR n * t),
     fst c * sin (2 * PI * IZR n * t) + snd c * cos (2 * PI * IZR n * t)).
Proof.
  unfold epicycle_vector.
  cbn [fadd fmul of_int math_pi np_abs np_angle np_cos np_sin exact fst snd].
  destruct c as [x y]. cbn [fst snd].
  destruct (polar_form x y) as [H1 H2].
  rewrite cos_plus, sin_plus.
  set (r := Cabs (x, y)) in *. set (g := arctan2 y x) in *.
  set (phi := 2 * PI * IZR n * t).
  f_equal.
  - replace (r * (cos phi * cos g - sin phi * sin g))
      with (cos phi * (r * cos g) - sin phi * (r * sin g)) by ring.
    rewrite H1, H2. ring.
  - replace (r * (sin phi * cos g + cos phi * sin g))
      with (sin phi * (r * cos g) + cos phi * (r * sin g)) by ring.
    rewrite H1, H2. ring.
Qed.

Lemma dft_coefficient_exact (samples : list (R * R)) (n : Z) :
  samples <> [] ->
  let N := length samples in
  let x := fun j : nat => nth j samples (0, 0) in
  let th := fun j : nat => - (2 * PI * IZR n * INR j / INR N) in
  @dft_coefficient exact samples n
  = (Rsum (fun j => fst (x j) * cos (th j) - snd (x j) * sin (th j)) N
     / INR N,
     Rsum (fun j => fst (x j) * sin (th j) + snd (x j) * cos (th j)) N
     / INR N).
Proof.
  intros Hne N x th.
  assert (HN : INR N <> 0).
  { apply not_0_INR. unfold N. destruct samples; [contradiction|discriminate]. }
  rewrite dft_coefficient_sum. unfold dft_sum. cbv zeta. fold N.
  rewrite (fold_left_ext_in _
             (fun acc j =>
                (fst acc + (fst (x j) * cos (th j) - snd (x j) * sin (th j)),
                 snd acc + (fst (x j) * sin (th j) + snd (x j) * cos (th j))))).
  - rewrite fold_pair_seq.
    unfold c_of_int, c_of_flt.
    cbn [np_div complex_ of_int exact fst snd]. unfold Cdiv. cbn [fst snd].
    rewrite <- INR_IZR_INZ. unfold th, N in *.
    change (@cpx exact) with (R * R)%type. f_equal; field; exact HN.
  - intros acc j _. rewrite twiddle_exact
      by (rewrite <- INR_IZR_INZ; exact HN).
    unfold c_of_int, c_of_flt.
    cbn [np_add np_mul complex_ of_int exact]. unfold Cadd, Cmul.
    cbn [fst snd]. rewrite <- !INR_IZR_INZ. reflexivity.
Qed.

(** The round-trip identity of the transform, in the arithmetic of real
    numbers: the composite point computed from the full, unfiltered
    coefficient list of [N >= 1] points at the instant [k / N] is the
    recorded point [k].  The program computes in binary64, where the two
    differ by rounding errors this identity says nothing about. *)
Theorem round_trip_at_sample_instants (points : list (@DrawPoint exact))
    (k : nat) :
  (k < length points)%nat ->
  @calculate_point exact
    (set_epicycles new_Path (raw_coefficients points))
    (fdiv (of_int (Z.of_nat k)) (of_int (Z.of_nat (length points))))
  = (IZR (pos_x (nth k points (mkDrawPoint (0, 0)%Z 0))),
     IZR (pos_y (nth k points (mkDrawPoint (0, 0)%Z 0)))).
Proof.
  intros Hk.
  set (samples := map (@complex_point exact) points).
  assert (Hlen : length points = length samples)
    by (symmetry; apply length_map).
  rewrite Hlen in Hk |- *.
  set (N := length samples) in *.
  assert (Hne : samples <> []).
  { intros E. unfold N in Hk. rewrite E in Hk. cbn in Hk. lia. }
  assert (HN : INR N <> 0) by (apply not_0_INR; lia).
  unfold calculate_point. cbn [epicycles set_epicycles].
  rewrite point_loop_fold. unfold raw_coefficients. cbv zeta.
  fold samples. fold N. rewrite freq_indices_seq, map_map, fold_left_map.
  set (a := (- ((Z.of_nat N + 1) / 2))%Z).
  set (x := fun j : nat => nth j samples (0, 0)).
  pose (th := fun (i j : nat) =>
                - (2 * PI * IZR (a + Z.of_nat i) * INR j / INR N)).
  pose (ph := fun i : nat =>
                2 * PI * IZR (a + Z.of_nat i) * (INR k / INR N)).
  pose (cr := fun i : nat =>
                Rsum (fun j => fst (x j) * cos (th i j)
                               - snd (x j) * sin (th i j)) N / INR N).
  pose (ci := fun i : nat =>
                Rsum (fun j => fst (x j) * sin (th i j)
                               + snd (x j) * cos (th i j)) N / INR N).
  rewrite (fold_left_ext_in _
             (fun acc i =>
                (fst acc + (cr i * cos (ph i) - ci i * sin (ph i)),
                 snd acc + (cr i * sin (ph i) + ci i * cos (ph i))))).
  - rewrite fold_pair_seq.
    destruct (inverse_sum a (fun j => fst (x j)) (fun j => snd (x j)) Hk)
      as [Hre Him].
    change (Rsum (fun i => cr i * cos (ph i) - ci i * sin (ph i)) N
            = fst (x k)) in Hre.
    change (Rsum (fun i => cr i * sin (ph i) + ci i * cos (ph i)) N
            = snd (x k)) in Him.
    rewrite Hre, Him.
    unfold x, samples.
    rewrite (nth_indep _ (0, 0)
               (@complex_point exact (@mkDrawPoint exact (0, 0)%Z 0)))
      by exact Hk.
    rewrite map_nth. unfold complex_point, canvas_center, pos_x, pos_y.
    cbn [fsub fdiv of_int complex_ exact fst snd]. f_equal; ring.
  - intros acc i _. rewrite epicycle_vector_exact.
    rewrite dft_coefficient_exact by exact Hne. cbv zeta.
    cbn [fst snd fadd fdiv of_int exact].
    rewrite <- !INR_IZR_INZ. reflexivity.
Qed.

Lemma round_trip_witness :
  (1 < length two_recorded_points)%nat
  /\ @calculate_point exact
       (set_epicycles new_Path (raw_coefficients two_recorded_points))
       (fdiv (of_int 1) (of_int 2))
     = (700, 500).
Proof.
  split; [cbn; lia|].
  exact (@round_trip_at_sample_instants two_recorded_points 1%nat
           (le_n 2)).
Defined.

End ExactFacts.

(** ** The event loop, frame by frame *)

Section MainFacts.

Context {A : Arith}.

(** X1: [draw_epicycles], which chains the circle centres through
    [prev_center], returns for every coefficient list and every [t] the
    point [calculate_point] computes with its two accumulators: the point
    [animate] appends to the trace is the composite point. *)
Theorem draw_epicycles_agrees_with_calculate_point (p : Path) (t : flt) :
  draw_epicycles p t = calculate_point p t.
Proof. apply chain_loop_point_loop. Qed.

(** *** The drawing never holds a path [animate] fails on *)

Lemma animate_drawable (p q : Path) (speed : flt) :
  animate p speed = Some q -> drawable p -> drawable q.
Proof.
  intros Ha [H1 H2]. split.
  - eapply animate_recorded; eassumption.
  - apply animate_keeps in Ha. destruct Ha as [-> _]. exact H2.
Qed.

Lemma animate_defined (p : Path) (speed : flt) :
  raw_points p <> [] -> exists q, animate p speed = Some q.
Proof.
  intros Hne. unfold animate. destruct (state p); try (eexists; reflexivity).
  unfold time_step. cbn [raw_points set_animation_points].
  destruct (raw_points p); [contradiction|].
  match goal with |- context [if ?b then _ else _] => destruct b end;
    eexists; reflexivity.
Qed.

Lemma animate_paths_drawable (ps : list Path) (speed : flt) :
  Forall drawable ps ->
  exists qs, animate_paths ps speed = Some qs /\ Forall drawable qs.
Proof.
  induction 1 as [|p ps Hp Hps IH]; cbn [animate_paths].
  - exists []. split; [reflexivity|constructor].
  - destruct IH as (qs & -> & Hqs).
    destruct (state p) eqn:Hs.
    + eexists. split; [reflexivity|]. constructor; assumption.
    + destruct (animate_defined p speed) as (q & Hq).
      { destruct Hp as [_ Hlen]. destruct (raw_points p); cbn in *;
          [lia|discriminate]. }
      rewrite Hq. eexists. split; [reflexivity|].
      constructor; [eapply animate_drawable; eassumption|assumption].
    + eexists. split; [reflexivity|]. constructor; assumption.
Qed.

Ltac split_drawable :=
  unfold stored_paths, set_paths_current in *;
  cbn [paths completed_paths remaining_paths] in *;
  rewrite ?Forall_app in *.

Lemma restart_drawable (p : Path) : drawable p -> drawable (restart p).
Proof. intros [_ H]. split; [cbn; discriminate|exact H]. Qed.

Lemma complete_animation_drawable (p : Path) :
  drawable p -> drawable (complete_animation p).
Proof.
  intros [H1 H2]. unfold drawable, complete_animation.
  destruct (state p) eqn:Hs; cbn; rewrite ?Hs; split; congruence.
Qed.

Lemma calculate_fourier_raw_points (p : Path) :
  raw_points (calculate_fourier p) = raw_points p.
Proof.
  unfold calculate_fourier.
  destruct (length (raw_points p) <? 2)%nat; reflexivity.
Qed.

Lemma sequential_animation_drawable (d : FourierDrawing) :
  Forall drawable (stored_paths d) ->
  Forall drawable (stored_paths (sequential_animation d)).
Proof.
  intros H. unfold sequential_animation.
  destruct (animating_all d); [|exact H].
  destruct (paths d) as [|cur rest] eqn:Hp; [exact H|].
  destruct (state cur); try exact H.
  destruct (remaining_paths d) as [|next remaining1] eqn:Hr;
    split_drawable; rewrite Hp, ?Hr in H; destruct H as (H1 & H2 & H3);
    inversion H1; subst.
  - repeat split; auto; constructor; auto.
  - inversion H3; subst.
    repeat split; auto; constructor; auto using restart_drawable.
Qed.

Lemma frame_update_drawable (d : FourierDrawing) :
  Forall drawable (stored_paths d) ->
  exists d', frame_update d = Some d'
             /\ Forall drawable (stored_paths d')
             /\ current_path d' = current_path d.
Proof.
  intros H. unfold frame_update.
  assert (Hp : Forall drawable (paths d)).
  { unfold stored_paths in H. rewrite Forall_app in H. tauto. }
  destruct (animate_paths_drawable (animation_speed d) Hp)
    as (qs & -> & Hqs).
  eexists. split; [reflexivity|]. split.
  - apply sequential_animation_drawable. split_drawable.
    destruct H as (_ & H2 & H3). repeat split; assumption.
  - unfold sequential_animation, set_paths_current. cbn.
    destruct (animating_all d); [|reflexivity].
    destruct qs as [|c ?]; [reflexivity|].
    destruct (state c); try reflexivity.
    destruct (remaining_paths d); reflexivity.
Qed.

Lemma handle_event_drawable (s : MainState) (e : Event) :
  Forall drawable (stored_paths (main_drawing s)) ->
  Forall drawable (stored_paths (main_drawing (handle_event s e))).
Proof.
  intros H. set (d := main_drawing s) in *.
  assert (Hclear : Forall drawable (stored_paths (key_clear d))).
  { unfold key_clear. split_drawable. intuition constructor. }
  assert (Hspace : Forall drawable (stored_paths (key_space d))).
  { unfold key_space. destruct (paths d) as [|p ps] eqn:Hp; [exact H|].
    split_drawable. rewrite Hp in H. destruct H as (H1 & H2 & H3).
    inversion H1; subst.
    repeat split; try constructor; auto using restart_drawable. }
  assert (Hstart : forall b, Forall drawable (stored_paths (start_new_path d b))).
  { intros b. unfold start_new_path. destruct b; split_drawable;
      intuition constructor. }
  assert (Hskip : Forall drawable (stored_paths (complete_all_animations d))).
  { unfold complete_all_animations.
    destruct (animating_all d); split_drawable; destruct H as (H1 & H2 & H3);
      repeat split; auto; try constructor;
      apply Forall_map_iff; (eapply Forall_impl; [|eassumption]);
      apply complete_animation_drawable. }
  assert (Hfinish : Forall drawable (stored_paths (finish_current_path d))).
  { unfold finish_current_path.
    destruct (current_path d) as [p|]; [|exact H].
    destruct (Nat.ltb_spec 1 (length (raw_points p))) as [Hlen|Hlen];
      [|exact H].
    split_drawable. destruct H as (H1 & H2 & H3).
    repeat split; auto. constructor; [|constructor].
    split; [cbn; discriminate|].
    cbn [raw_points set_state]. rewrite calculate_fourier_raw_points. lia. }
  unfold handle_event. fold d.
  destruct e as [|[]|button on_help|button|y|]; cbn [main_drawing]; auto.
  - destruct (show_help d).
    + destruct on_help; cbn [main_drawing]; exact H.
    + destruct (button =? 1)%Z; cbn [main_drawing]; [apply Hstart|].
      destruct (button =? 3)%Z; [|exact H].
      destruct (animating_all d || any_animating (paths d));
        cbn [main_drawing]; auto.
  - destruct ((button =? 1)%Z || (button =? 3)%Z); cbn [main_drawing]; auto.
Qed.

Lemma main_iteration_drawable (s : MainState) (events : list Event)
    (mouse : Z * Z) (now : flt) :
  Forall drawable (stored_paths (main_drawing s)) ->
  exists s', main_iteration s events mouse now = Some s'
             /\ Forall drawable (stored_paths (main_drawing s')).
Proof.
  intros H. unfold main_iteration.
  assert (H1 : Forall drawable
                 (stored_paths (main_drawing (fold_left handle_event events s)))).
  { revert s H. induction events as [|e events IH]; intros s H;
      cbn [fold_left]; [exact H|].
    apply IH. apply handle_event_drawable. exact H. }
  set (s1 := fold_left handle_event events s) in *.
  assert (H2 : Forall drawable
                 (stored_paths (main_drawing (record_mouse s1 mouse now)))).
  { unfold record_mouse. destruct (drawing_active s1); [|exact H1].
    destruct (current_path (main_drawing s1)); exact H1. }
  destruct (frame_update_drawable _ H2) as (d' & -> & Hd' & _).
  eexists. split; [reflexivity|]. exact Hd'.
Qed.

Lemma run_main_drawable (inputs : list Input) (s : MainState) :
  Forall drawable (stored_paths (main_drawing s)) ->
  exists s' : MainState,
    run_main s inputs = Some s'
    /\ Forall drawable (stored_paths (main_drawing s')).
Proof.
  revert s.
  induction inputs as [|[[events mouse] now] inputs IH]; intros s H.
  - exists s. split; [reflexivity|exact H].
  - cbn [run_main]. destruct (running s).
    + destruct (main_iteration_drawable _ events mouse now H)
        as (s' & -> & Hs').
      apply IH. exact Hs'.
    + exists s. split; [reflexivity|exact H].
Qed.

(** X2: started from the initial state of [main], the loop never raises
    the [ZeroDivisionError] of [animate], whatever events, pointer
    positions and clock values its iterations read: every path the drawing
    stores ([paths], [completed_paths], [remaining_paths]) has left the
    state "drawing" and has at least two recorded points. *)
Theorem main_never_divides_by_zero (inputs : list Input) :
  exists s : MainState,
    run_main main_start inputs = Some s
    /\ Forall drawable (stored_paths (main_drawing s)).
Proof. apply run_main_drawable. constructor. Qed.


(** *** The trace of an animation *)

Lemma animate_appends_one (p q : Path) (speed : flt) :
  state p = animating -> animate p speed = Some q ->
  animation_points q = animation_points p ++ [calculate_point p (time p)]
  /\ (state q = complete -> time q = of_int 0).
Proof.
  intros Hs Ha. unfold animate in Ha. rewrite Hs in Ha.
  destruct (time_step _ speed) as [dt|]; [|discriminate].
  rewrite draw_epicycles_calculate_point in Ha.
  match type of Ha with context [if ?b then _ else _] => destruct b end;
    inversion Ha; subst; cbn; split; try reflexivity.
  rewrite Hs. discriminate.
Qed.

(** X3: an animation that completes after [n] calls of [animate] has
    appended exactly [n] points to [animation_points], behind the points
    that were there, and leaves the path complete with [time] back at 0. *)
Theorem finished_animation_trace (speed : flt) (p q : Path) (n : nat) :
  finishes speed p n q ->
  length (animation_points q) = (length (animation_points p) + n)%nat
  /\ firstn (length (animation_points p)) (animation_points q)
     = animation_points p
  /\ time q = of_int 0
  /\ state q = complete.
Proof.
  induction 1 as [p q Hp Ha Hq|p q r n Hp Ha Hq Hf IH].
  - destruct (@animate_appends_one p q speed Hp Ha) as [Hpts Ht].
    rewrite Hpts, length_app, firstn_length_app. cbn. auto.
  - destruct (@animate_appends_one p q speed Hp Ha) as [Hpts _].
    destruct IH as (H1 & H2 & H3 & H4). rewrite Hpts in H1, H2.
    rewrite length_app in H1, H2. cbn [length] in H1, H2.
    repeat split; trivial; [lia|].
    transitivity
      (firstn (length (animation_points p))
         (firstn (length (animation_points p) + 1) (animation_points r))).
    + rewrite firstn_firstn. f_equal. lia.
    + rewrite H2. apply firstn_length_app.
Qed.

(** *** Commands *)

Lemma complete_animation_idempotent (p : Path) :
  complete_animation (complete_animation p) = complete_animation p.
Proof. unfold complete_animation. destruct (state p) eqn:Hs; cbn; rewrite ?Hs; reflexivity. Qed.

(** X4: [complete_all_animations] is idempotent: a second call changes
    nothing. *)
Theorem complete_all_animations_idempotent (d : FourierDrawing) :
  complete_all_animations (complete_all_animations d)
  = complete_all_animations d.
Proof.
  unfold complete_all_animations.
  destruct (animating_all d) eqn:E; cbn; rewrite ?E.
  - rewrite map_app, !map_map.
    rewrite !(map_ext _ _ complete_animation_idempotent). reflexivity.
  - rewrite map_map, (map_ext _ _ complete_animation_idempotent).
    reflexivity.
Qed.

Lemma animate_paths_idle (ps : list Path) (speed : flt) :
  any_animating ps = false -> animate_paths ps speed = Some ps.
Proof.
  induction ps as [|p ps IH]; cbn; [reflexivity|].
  intros H. apply orb_false_elim in H. destruct H as [H1 H2].
  rewrite (IH H2). destruct (state p); try reflexivity. discriminate.
Qed.

Lemma run_frames_idle (d : FourierDrawing) (n : nat) :
  animating_all d = false -> any_animating (paths d) = false ->
  run_frames n d = Some d.
Proof.
  intros Ha Hn.
  assert (H : frame_update d = Some d).
  { unfold frame_update. rewrite (@animate_paths_idle (paths d) (animation_speed d) Hn).
    change (set_paths_current d (paths d) (current_path d))
      with (with_paths d (paths d)).
    rewrite (@with_paths_eta _ d (paths d) eq_refl).
    unfold sequential_animation. rewrite Ha. reflexivity. }
  induction n as [|n IH]; cbn; [reflexivity|]. rewrite H. exact IH.
Qed.

Lemma any_animating_false_after_complete (ps : list Path) :
  any_animating (map complete_animation ps) = false.
Proof.
  unfold any_animating.
  induction ps as [|p ps IH]; cbn [map existsb]; [reflexivity|].
  rewrite IH. unfold complete_animation.
  destruct (state p) eqn:Hs; cbn; rewrite ?Hs; reflexivity.
Qed.

(** X6: with the help overlay closed, a right click leaves no path of
    [paths] animating and no replay running.  If something was animating
    or a replay was running, the click only force-completes: no new path
    is started and [drawing_active] keeps its value; otherwise it starts a
    new path beside the existing ones. *)
Theorem right_click_leaves_nothing_animating (s : MainState) (on_help : bool) :
  show_help (main_drawing s) = false ->
  let s' := handle_event s (MOUSEBUTTONDOWN 3 on_help) in
  any_animating (paths (main_drawing s')) = false
  /\ animating_all (main_drawing s') = false
  /\ (animating_all (main_drawing s) || any_animating (paths (main_drawing s))
      = true ->
      current_path (main_drawing s') = current_path (main_drawing s)
      /\ drawing_active s' = drawing_active s)
  /\ (animating_all (main_drawing s) || any_animating (paths (main_drawing s))
      = false ->
      current_path (main_drawing s') = Some new_Path
      /\ drawing_active s' = true
      /\ paths (main_drawing s') = paths (main_drawing s)).
Proof.
  intros Hh. cbv zeta. unfold handle_event. rewrite Hh.
  change (3 =? 1)%Z with false. change (3 =? 3)%Z with true. cbv iota.
  destruct (animating_all (main_drawing s)
            || any_animating (paths (main_drawing s))) eqn:E;
    cbn [main_drawing drawing_active].
  - split; [|split; [|split; [|discriminate]]].
    + unfold complete_all_animations.
      destruct (animating_all (main_drawing s)); cbn [paths].
      * rewrite <- map_app. apply any_animating_false_after_complete.
      * apply any_animating_false_after_complete.
    + unfold complete_all_animations.
      destruct (animating_all (main_drawing s)) eqn:Ea; cbn; rewrite ?Ea;
        reflexivity.
    + intros _. unfold complete_all_animations.
      destruct (animating_all (main_drawing s)); split; reflexivity.
  - apply orb_false_elim in E. destruct E as [E1 E2].
    unfold start_new_path. cbn. repeat split; try assumption.
    all: discriminate.
Qed.

Lemma left_click_same_iteration (s : MainState) (b : bool)
    (mouse : Z * Z) (now : flt) :
  show_help (main_drawing s) = false ->
  exists s',
    main_iteration s [MOUSEBUTTONDOWN 1 b; MOUSEBUTTONUP 1] mouse now
    = Some s'
    /\ paths (main_drawing s') = []
    /\ completed_paths (main_drawing s') = []
    /\ current_path (main_drawing s') = None
    /\ animating_all (main_drawing s') = false
    /\ drawing_active s' = false.
Proof.
  intros Hh. unfold main_iteration. cbn [fold_left].
  unfold handle_event at 2. rewrite Hh.
  change (1 =? 1)%Z with true. cbv iota.
  unfold handle_event. cbn [main_drawing running drawing_active].
  change ((1 =? 1)%Z || (1 =? 3)%Z) with true. cbv iota.
  unfold record_mouse. cbn [drawing_active main_drawing].
  unfold finish_current_path, start_new_path. cbn.
  eexists. split; [reflexivity|]. cbn. repeat split.
Qed.


Lemma left_click_next_iteration (s : MainState) (b : bool)
    (mouse1 mouse2 : Z * Z) (now1 now2 : flt) :
  show_help (main_drawing s) = false ->
  exists s1 s2,
    main_iteration s [MOUSEBUTTONDOWN 1 b] mouse1 now1 = Some s1
    /\ option_map raw_points (current_path (main_drawing s1))
       = Some [mkDrawPoint mouse1 now1]
    /\ main_iteration s1 [MOUSEBUTTONUP 1] mouse2 now2 = Some s2
    /\ paths (main_drawing s2) = []
    /\ completed_paths (main_drawing s2) = []
    /\ current_path (main_drawing s2) = None
    /\ drawing_active s2 = false.
Proof.
  intros Hh. unfold main_iteration at 1. cbn [fold_left].
  unfold handle_event. rewrite Hh.
  change (1 =? 1)%Z with true. cbv iota.
  unfold record_mouse. cbn [drawing_active main_drawing].
  unfold start_new_path. cbn.
  eexists. eexists. split; [reflexivity|]. cbn. split; [reflexivity|].
  unfold main_iteration. cbn [fold_left]. unfold handle_event.
  cbn [main_drawing running drawing_active].
  change ((1 =? 1)%Z || (1 =? 3)%Z) with true. cbv iota.
  unfold record_mouse. cbn [drawing_active main_drawing].
  unfold finish_current_path. cbn. split; [reflexivity|]. cbn.
  repeat split.
Qed.

(** X7: with the help overlay closed, a left click that is released
    within the same batch of events, or in the next iteration, leaves an
    empty drawing: the press clears [paths] and [completed_paths], and the
    release discards the new path, which has no point or one. *)
Theorem short_left_click_clears_the_drawing (s : MainState) (b : bool)
    (mouse1 mouse2 : Z * Z) (now1 now2 : flt) :
  show_help (main_drawing s) = false ->
  (exists s',
     main_iteration s [MOUSEBUTTONDOWN 1 b; MOUSEBUTTONUP 1] mouse1 now1
     = Some s'
     /\ paths (main_drawing s') = []
     /\ completed_paths (main_drawing s') = []
     /\ current_path (main_drawing s') = None
     /\ animating_all (main_drawing s') = false
     /\ drawing_active s' = false)
  /\ (exists s1 s2,
        main_iteration s [MOUSEBUTTONDOWN 1 b] mouse1 now1 = Some s1
        /\ option_map raw_points (current_path (main_drawing s1))
           = Some [mkDrawPoint mouse1 now1]
        /\ main_iteration s1 [MOUSEBUTTONUP 1] mouse2 now2 = Some s2
        /\ paths (main_drawing s2) = []
        /\ completed_paths (main_drawing s2) = []
        /\ current_path (main_drawing s2) = None
        /\ drawing_active s2 = false).
Proof.
  intros Hh. split.
  - apply left_click_same_iteration. exact Hh.
  - apply left_click_next_iteration. exact Hh.
Qed.

(** *** Recording *)

Lemma frame_update_current_path (d d' : FourierDrawing) :
  frame_update d = Some d' -> current_path d' = current_path d.
Proof.
  unfold frame_update.
  destruct (animate_paths (paths d) (animation_speed d)) as [qs|];
    [|discriminate].
  intros E. inversion E; subst.
  unfold sequential_animation, set_paths_current. cbn.
  destruct (animating_all d); [|reflexivity].
  destruct qs as [|c ?]; [reflexivity|].
  destruct (state c); try reflexivity.
  destruct (remaining_paths d); reflexivity.
Qed.

Lemma add_points_raw_points (samples : list ((Z * Z) * flt)) (p : Path) :
  raw_points (fold_left (fun q x => add_point q (fst x) (snd x)) samples p)
  = raw_points p ++ map (fun x => mkDrawPoint (fst x) (snd x)) samples.
Proof.
  revert p. induction samples as [|x samples IH]; intros p; cbn [fold_left map].
  - rewrite app_nil_r. reflexivity.
  - rewrite IH. cbn. rewrite <- app_assoc. reflexivity.
Qed.

Lemma held_button_run (s s' : MainState) (p : Path)
    (samples : list ((Z * Z) * flt)) :
  running s = true ->
  drawing_active s = true ->
  current_path (main_drawing s) = Some p ->
  run_main s (held_inputs samples) = Some s' ->
  exists p',
    current_path (main_drawing s') = Some p'
    /\ raw_points p'
       = raw_points p ++ map (fun x => mkDrawPoint (fst x) (snd x)) samples
    /\ state p' = state p
    /\ epicycles p' = epicycles p
    /\ drawing_active s' = true.
Proof.
  intros Hr Ha Hp Hrun.
  assert (H : current_path (main_drawing s')
              = Some (fold_left (fun q x => add_point q (fst x) (snd x))
                        samples p)
              /\ drawing_active s' = true).
  { revert s p Hr Ha Hp Hrun.
    induction samples as [|[mouse now] samples IH]; intros s p Hr Ha Hp Hrun;
      cbn [held_inputs map run_main fold_left fst snd] in *.
    - inversion Hrun; subst. auto.
    - rewrite Hr in Hrun.
      destruct (main_iteration s [] mouse now) as [s1|] eqn:E; [|discriminate].
      unfold main_iteration, record_mouse in E. cbn [fold_left] in E.
      rewrite Ha, Hp in E. cbn [main_drawing running drawing_active] in E.
      destruct (frame_update _) as [d1|] eqn:Ed; [|discriminate].
      inversion E; subst. apply frame_update_current_path in Ed.
      cbn [current_path set_paths_current] in Ed.
      eapply IH; [| | |exact Hrun]; cbn; trivial. }
  destruct H as [H1 H2]. eexists. split; [exact H1|].
  rewrite add_points_raw_points. repeat split; trivial.
  - clear. revert p. induction samples as [|x samples IH]; intros p;
      cbn [fold_left]; [reflexivity|]. rewrite IH. reflexivity.
  - clear. revert p. induction samples as [|x samples IH]; intros p;
      cbn [fold_left]; [reflexivity|]. rewrite IH. reflexivity.
Qed.

(** X8: while the button is held and no event arrives, the iterations
    append the pointer positions they read to the current path, one per
    iteration and in order, each with the clock value read with it; the
    path keeps its state and coefficients and stays the current path. *)
Theorem held_button_records_the_pointer (s : MainState) (p : Path)
    (samples : list ((Z * Z) * flt)) :
  running s = true ->
  drawing_active s = true ->
  current_path (main_drawing s) = Some p ->
  Forall drawable (stored_paths (main_drawing s)) ->
  exists (s' : MainState) (p' : Path),
    run_main s (held_inputs samples) = Some s'
    /\ current_path (main_drawing s') = Some p'
    /\ raw_points p'
       = raw_points p ++ map (fun x => mkDrawPoint (fst x) (snd x)) samples
    /\ state p' = state p
    /\ epicycles p' = epicycles p
    /\ drawing_active s' = true.
Proof.
  intros Hr Ha Hp Hd.
  destruct (run_main_drawable (held_inputs samples) _ Hd) as (s' & Hrun & _).
  destruct (@held_button_run s s' p samples Hr Ha Hp Hrun) as (p' & H).
  exists s', p'. split; [exact Hrun|exact H].
Qed.

(** *** Animations end *)

Lemma clock_frames_finishes (fuel : nat) (speed dt : flt) :
  forall (p : Path) (n : nat),
    state p = animating -> time_step p speed = Some dt ->
    clock_frames fuel dt (time p) = Some n ->
    exists q, finishes speed p n q.
Proof.
  induction fuel as [|fuel IH]; intros p n Hs Hdt Hclock; cbn in Hclock;
    [discriminate|].
  destruct (@animate_step _ p speed dt Hs Hdt) as (q & Ha & _ & Hraw & _ & Ht & Hq).
  destruct (fleb (of_int 1) (fadd (time p) dt)) eqn:E.
  - inversion Hclock; subst. exists q. apply finishes_last; assumption.
  - destruct (clock_frames fuel dt (fadd (time p) dt)) as [m|] eqn:Em;
      [|discriminate].
    inversion Hclock; subst.
    assert (Hdt' : time_step q speed = Some dt).
    { unfold time_step in *. rewrite Hraw. exact Hdt. }
    rewrite <- Ht in Em.
    destruct (IH q m Hq Hdt' Em) as (r & Hr).
    exists r. eapply finishes_step; eassumption.
Qed.


(** *** A path added to [paths] during a replay *)

(** X10: during a replay, the frame in which the first path of [paths]
    completes keeps none of the paths behind it (a path that
    [finish_current_path] appended while the replay ran): the frame ends
    in the state it would reach if the first path were alone, and the
    drawing then holds the replayed paths, the completed path and the
    queue only. *)
Theorem replay_drops_the_paths_behind_the_first (d d' : FourierDrawing)
    (c c' : Path) (extra : list Path) :
  animating_all d = true ->
  paths d = c :: extra ->
  state c = animating ->
  animate c (animation_speed d) = Some c' ->
  state c' = complete ->
  frame_update d = Some d' ->
  frame_update (set_paths_current d [c] (current_path d)) = Some d'
  /\ stored_paths d'
     = match remaining_paths d with
       | [] => completed_paths d ++ [c']
       | next_path :: rest =>
           [restart next_path] ++ (completed_paths d ++ [c']) ++ rest
       end.
Proof.
  intros Ha Hp Hs Hc Hc' Hf. unfold frame_update in *. rewrite Hp in Hf.
  cbn [animate_paths paths set_paths_current animation_speed] in *.
  rewrite Hs, Hc in *.
  destruct (animate_paths extra (animation_speed d)) as [es|]; [|discriminate].
  inversion Hf; subst. unfold sequential_animation, stored_paths.
  cbn [animating_all paths set_paths_current completed_paths remaining_paths
       current_path show_help current_animation_index animation_speed
       show_original].
  rewrite Ha, Hc'. destruct (remaining_paths d); cbn; split; trivial.
  rewrite !app_nil_r. reflexivity.
Qed.

End MainFacts.


(** ** The statements above on the scenarios *)

Module RunFacts.

Import Binary64 Scenario Strokes.
Local Open Scope float_scope.

Lemma finished_animation_trace_witness :
  exists (n : nat) (q : @Path A64),
    finishes DEFAULT_SPEED (@finished_path A64 two_points) n q
    /\ time q = float_of_int 0 /\ state q = complete.
Proof.
  destruct (@finishes_within_finishes A64 5 (finished_path two_points)
              DEFAULT_SPEED) as (n & q & H); [vm_compute; reflexivity|].
  exists n, q. split; [exact H|].
  destruct (@finished_animation_trace A64 _ _ _ _ H) as (_ & _ & H3 & H4).
  split; [exact H3|exact H4].
Defined.

Lemma right_click_leaves_nothing_animating_witness :
  show_help (main_drawing (@main_start A64)) = false
  /\ animating_all
       (main_drawing (handle_event (@main_start A64) (MOUSEBUTTONDOWN 3 false)))
     = false.
Proof.
  split; [reflexivity|].
  exact (proj1 (proj2 (@right_click_leaves_nothing_animating A64 main_start
                         false eq_refl))).
Defined.

Lemma short_left_click_clears_the_drawing_witness :
  show_help (main_drawing (@main_start A64)) = false
  /\ exists s' : @MainState A64,
       @main_iteration A64 main_start
         [MOUSEBUTTONDOWN 1 false; MOUSEBUTTONUP 1] (100, 100)%Z 0
       = Some s'
       /\ paths (main_drawing s') = [].
Proof.
  split; [reflexivity|].
  destruct (@short_left_click_clears_the_drawing A64 main_start false
              (100, 100)%Z (100, 100)%Z 0 0 eq_refl)
    as [(s' & H1 & H2 & _) _].
  exists s'. split; [exact H1|exact H2].
Defined.

Lemma held_button_records_the_pointer_witness :
  running pressed = true /\ drawing_active pressed = true
  /\ current_path (main_drawing pressed) = Some new_Path
  /\ exists (s' : @MainState A64) (p' : @Path A64),
       @run_main A64 pressed (held_inputs three_samples) = Some s'
       /\ current_path (main_drawing s') = Some p'
       /\ map pos_x (raw_points p') = [100; 110; 130]%Z.
Proof.
  split; [reflexivity|]. split; [reflexivity|]. split; [reflexivity|].
  destruct (@held_button_records_the_pointer A64 pressed new_Path
              three_samples eq_refl eq_refl eq_refl (Forall_nil _))
    as (s' & p' & H1 & H2 & H3 & _).
  exists s', p'. split; [exact H1|]. split; [exact H2|].
  rewrite H3. reflexivity.
Defined.

Lemma replay_drops_the_paths_behind_the_first_witness :
  animating_all replay_with_late_path = true
  /\ length (paths replay_with_late_path) = 2%nat
  /\ exists d' : @FourierDrawing A64,
       frame_update replay_with_late_path = Some d'
       /\ length (stored_paths d') = 1%nat.
Proof.
  split; [reflexivity|]. split; [reflexivity|].
  destruct (frame_update replay_with_late_path) as [d'|] eqn:Hf.
  - destruct (animate half_way (animation_speed replay_with_late_path))
      as [c'|] eqn:Hc.
    + assert (Hc' : state c' = complete).
      { assert (E : option_map (fun q => PathState_eqb (state q) complete)
                      (animate half_way
                         (animation_speed replay_with_late_path))
                    = Some true) by (vm_compute; reflexivity).
        rewrite Hc in E. cbn in E. destruct (state c'); 
          (reflexivity || discriminate). }
      destruct (@replay_drops_the_paths_behind_the_first A64
                  replay_with_late_path d' half_way c'
                  [@finished_path A64 square_points]
                  eq_refl eq_refl eq_refl Hc Hc' Hf) as [_ H].
      exists d'. split; [reflexivity|]. rewrite H. reflexivity.
    + exfalso.
      assert (E : option_map (fun q => PathState_eqb (state q) complete)
                    (animate half_way
                       (animation_speed replay_with_late_path))
                  = Some true) by (vm_compute; reflexivity).
      rewrite Hc in E. discriminate.
  - exfalso.
    assert (E : option_map (fun d => animating_all d)
                  (frame_update replay_with_late_path)
                = Some false) by (vm_compute; reflexivity).
    rewrite Hf in E. discriminate.
Defined.

End RunFacts.

(** ** binary64: the number of frames of an animation *)

Module Binary64Clock.

Import Binary64 Clock64.
Local Open Scope float_scope.


Lemma clock_frames_clock64 (L : Libm) (fuel : nat) (dt t : float) :
  @clock_frames (binary64 L) fuel dt t = clock64 fuel dt t.
Proof.
  revert t. induction fuel as [|fuel IH]; intros t; [reflexivity|].
  cbn [clock_frames clock64]. rewrite IH. reflexivity.
Qed.

Lemma frames_checked_up_to_3600 :
  forallb frames_checked (seq 2 3599) = true.
Proof. vm_compute. reflexivity. Qed.

Lemma finishes_at_full_speed (L : Libm) (p : @Path (binary64 L)) :
  state p = animating ->
  time p = float_of_int 0 ->
  (2 <= length (raw_points p) <= 3600)%nat ->
  exists (n : nat) (q : @Path (binary64 L)),
    finishes DEFAULT_SPEED p n q
    /\ (n = length (raw_points p) \/ n = S (length (raw_points p))).
Proof.
  intros Hs Ht HN.
  pose proof frames_checked_up_to_3600 as Hall.
  rewrite forallb_forall in Hall.
  specialize (Hall (length (raw_points p))).
  rewrite in_seq in Hall. specialize (Hall ltac:(lia)).
  unfold frames_checked in Hall.
  destruct (clock64 _ _ _) as [n|] eqn:E; [|discriminate].
  assert (Hdt : time_step p DEFAULT_SPEED
                = Some (float_of_int 1
                        / float_of_int (Z.of_nat (length (raw_points p)))
                        * float_of_int 1)).
  { unfold time_step. destruct (raw_points p); [cbn in HN; lia|reflexivity]. }
  rewrite <- (clock_frames_clock64 L), <- Ht in E.
  destruct (@clock_frames_finishes (binary64 L) _ _ _ p n Hs Hdt E)
    as (q & Hq).
  exists n, q. split; [exact Hq|].
  apply orb_true_iff in Hall. rewrite !Nat.eqb_eq in Hall. exact Hall.
Qed.

(** X11: in binary64 arithmetic, at speed 1.0, the animation of a path
    of [N] recorded points, for [2 <= N <= 3600], started at time 0,
    completes, and does so at the [N]-th or the [(N+1)]-th call of
    [animate], whatever the library functions are. *)
Theorem full_speed_animation_length (L : Libm) (p : @Path (binary64 L)) :
  state p = animating ->
  time p = float_of_int 0 ->
  (2 <= length (raw_points p) <= 3600)%nat ->
  exists (n : nat) (q : @Path (binary64 L)),
    finishes DEFAULT_SPEED p n q
    /\ (n = length (raw_points p) \/ n = S (length (raw_points p))).
Proof. apply finishes_at_full_speed. Qed.

Lemma full_speed_animation_length_witness :
  (2 <= length (raw_points (@finished_path Scenario.A64 Scenario.ten_points))
   <= 3600)%nat
  /\ exists (n : nat) (q : @Path Scenario.A64),
       finishes DEFAULT_SPEED (@finished_path Scenario.A64 Scenario.ten_points)
         n q
       /\ (n = 10%nat \/ n = 11%nat).
Proof.
  assert (H : (2 <= length (raw_points (@finished_path Scenario.A64
                                          Scenario.ten_points))
               <= 3600)%nat) by (vm_compute; lia).
  split; [exact H|].
  exact (@full_speed_animation_length textbook_libm
           (@finished_path Scenario.A64 Scenario.ten_points)
           eq_refl eq_refl H).
Defined.

End Binary64Clock.

(** ** The replay, iteration by iteration *)

Section ReplayInvariant.

Context {A : Arith}.

Lemma skipn_cons_nth {X : Type} (l : list X) (j : nat) (x : X) :
  (j < length l)%nat -> skipn j l = nth j l x :: skipn (S j) l.
Proof.
  revert j. induction l as [|y l IH]; intros [|j] H; cbn in *; try lia.
  - reflexivity.
  - apply IH. lia.
Qed.

Lemma firstn_S_nth {X : Type} (l : list X) (j : nat) (x : X) :
  (j < length l)%nat -> firstn (S j) l = firstn j l ++ [nth j l x].
Proof.
  revert j. induction l as [|y l IH]; intros [|j] H; cbn in *; try lia.
  - reflexivity.
  - f_equal. apply IH. lia.
Qed.

Lemma skipn_nonempty {X : Type} (l : list X) (j : nat) (x : X)
    (rest : list X) :
  skipn j l = x :: rest -> (j < length l)%nat.
Proof.
  intros E. destruct (Nat.lt_ge_cases j (length l)) as [H|H]; [exact H|].
  rewrite skipn_all2 in E by exact H. discriminate.
Qed.

Lemma Forall_skipn {X : Type} (P : X -> Prop) (l : list X) (j : nat) :
  Forall P l -> Forall P (skipn j l).
Proof.
  intros H. rewrite <- (firstn_skipn j l) in H.
  apply Forall_app in H. apply H.
Qed.

Lemma replaying_count (ps : list Path) (d : FourierDrawing) :
  Forall replayable ps -> replaying ps d -> animating_count d = 1%nat.
Proof.
  intros Hps (_ & _ & Hdone & (cur & Hp & Hs & _) & Hrem).
  apply animating_count_one with (cur := cur); trivial.
  - eapply replayed_complete. exact Hdone.
  - rewrite Hrem. apply Forall_skipn.
    eapply Forall_impl; [|exact Hps]. intros p Hp'. apply Hp'.
Qed.

(** One frame of a replay. *)
Lemma frame_update_replaying (ps : list Path) (d : FourierDrawing) :
  Forall replayable ps -> replaying ps d ->
  exists d',
    frame_update d = Some d'
    /\ animation_speed d' = animation_speed d
    /\ ((replaying ps d'
         /\ (replay_position d' = replay_position d
             \/ replay_position d' = S (replay_position d)))
        \/ (replay_done ps d'
            /\ S (replay_position d) = length ps)).
Proof.
  intros Hps (Ha & Hj & Hdone & (cur & Hp & Hs & Hraw & Heps) & Hrem).
  unfold replay_position. rewrite Ha.
  remember (length (completed_paths d)) as j eqn:Ej.
  assert (Hnth : replayable (nth j ps new_Path)).
  { rewrite Forall_forall in Hps. apply Hps. apply nth_In. exact Hj. }
  assert (Hdt : exists dt, time_step cur (animation_speed d) = Some dt).
  { unfold time_step. rewrite Hraw.
    destruct (raw_points (nth j ps new_Path)) eqn:E;
      [destruct Hnth as [_ H]; contradiction|]. eexists. reflexivity. }
  destruct Hdt as (dt & Hdt).
  destruct (@animate_step _ cur (animation_speed d) dt Hs Hdt)
    as (q & Hq & _ & Hqraw & Hqeps & _ & Hqs).
  rewrite (frame_update_single d Hp Hs Hq).
  destruct (fleb (of_int 1) (fadd (time cur) dt)).
  - (* the path completes in this frame *)
    assert (Hrq : replayed (nth j ps new_Path) q).
    { repeat split; congruence. }
    assert (Hdone' : Forall2 replayed (firstn (S j) ps)
                       (completed_paths d ++ [q])).
    { rewrite (firstn_S_nth ps new_Path Hj).
      apply Forall2_app; [exact Hdone|]. constructor; [exact Hrq|constructor]. }
    assert (Hlen' : length (completed_paths d ++ [q]) = S j).
    { rewrite length_app. cbn [length]. lia. }
    unfold sequential_animation, with_paths.
    cbn [animating_all paths set_paths_current remaining_paths
         completed_paths].
    rewrite Ha, Hqs. destruct (remaining_paths d) as [|next rest] eqn:Hr.
    + eexists. split; [reflexivity|]. split; [reflexivity|]. right.
      assert (HS : S j = length ps).
      { destruct (Nat.lt_ge_cases (S j) (length ps)) as [H|H]; [|lia].
        symmetry in Hrem.
        rewrite (skipn_cons_nth ps new_Path H) in Hrem. discriminate. }
      split; [|exact HS]. unfold replay_done.
      cbn [animating_all paths completed_paths remaining_paths].
      split; [reflexivity|]. split; [|split; reflexivity].
      rewrite HS, firstn_all in Hdone'. exact Hdone'.
    + eexists. split; [reflexivity|]. split; [reflexivity|]. left.
      symmetry in Hrem.
      pose proof (skipn_nonempty _ _ Hrem) as HS.
      rewrite (skipn_cons_nth ps new_Path HS) in Hrem.
      injection Hrem as Hnext Hrest.
      cbn [animating_all completed_paths]. rewrite Hlen'.
      split; [|right; reflexivity]. unfold replaying.
      cbn [animating_all paths completed_paths remaining_paths].
      rewrite Hlen'.
      split; [reflexivity|]. split; [exact HS|]. split; [exact Hdone'|].
      split; [|symmetry; exact Hrest].
      exists (restart next). rewrite Hnext. repeat split.
  - (* the path goes on *)
    rewrite (sequential_animation_going d q Hqs).
    eexists. split; [reflexivity|]. split; [reflexivity|]. left.
    cbn [animating_all with_paths set_paths_current completed_paths].
    rewrite Ha, <- Ej. split; [|left; reflexivity].
    unfold replaying.
    cbn [animating_all with_paths set_paths_current completed_paths paths
         remaining_paths].
    rewrite <- Ej.
    split; [exact Ha|]. split; [exact Hj|]. split; [exact Hdone|].
    split; [|exact Hrem].
    exists q. repeat split; congruence.
Qed.

Lemma replay_done_complete (ps : list Path) (d : FourierDrawing) :
  replay_done ps d ->
  animating_all d = false /\ any_animating (paths d) = false.
Proof.
  intros (Ha & Hdone & _). split; [exact Ha|].
  apply replayed_complete in Hdone. unfold any_animating.
  induction Hdone as [|p l Hp _ IH]; cbn; [reflexivity|].
  rewrite IH, Hp. reflexivity.
Qed.

Lemma frame_update_replay_done (ps : list Path) (d : FourierDrawing) :
  replay_done ps d -> frame_update d = Some d.
Proof.
  intros H. destruct (replay_done_complete H) as [Ha Hn].
  pose proof (@run_frames_idle _ d 1 Ha Hn) as E. cbn in E.
  destruct (frame_update d); [exact E|discriminate].
Qed.

(** The replay, frame by frame: it is at one path or over, and moves on
    by one path at a time. *)
Lemma frame_update_replay_state (ps : list Path) (d : FourierDrawing) :
  Forall replayable ps -> replay_state ps d ->
  exists d',
    frame_update d = Some d'
    /\ animation_speed d' = animation_speed d
    /\ replay_state ps d'
    /\ (replay_position d' = replay_position d
        \/ replay_position d' = S (replay_position d)).
Proof.
  intros Hps [[H _]|H].
  - destruct (frame_update_replaying Hps H)
      as (d' & E & Hspeed & [[H1 H2]|[H1 H2]]);
      exists d'; (split; [exact E|]); (split; [exact Hspeed|]).
    + split; [|exact H2]. left. split; [exact H1|].
      apply (replaying_count Hps H1).
    + split; [right; exact H1|]. right.
      destruct H1 as (Ha & Hdone & _). unfold replay_position at 1.
      rewrite Ha, <- (Forall2_length Hdone). symmetry. exact H2.
  - exists d. split; [apply (frame_update_replay_done H)|].
    split; [reflexivity|]. split; [right; exact H|left; reflexivity].
Qed.


Lemma key_space_replay_state (d : FourierDrawing) :
  paths d <> [] -> Forall replayable (paths d) ->
  replay_state (paths d) (key_space d)
  /\ replay_position (key_space d) = 0%nat
  /\ animation_speed (key_space d) = animation_speed d.
Proof.
  intros Hne Hps. destruct (paths d) as [|p rest] eqn:Hp; [contradiction|].
  assert (H : replaying (p :: rest) (key_space d)).
  { unfold key_space, replaying. rewrite Hp. cbn.
    split; [reflexivity|]. split; [lia|]. split; [constructor|].
    split; [|reflexivity]. exists (restart p). repeat split. }
  split; [|split].
  - left. split; [exact H|]. apply (replaying_count Hps H).
  - unfold key_space, replay_position. rewrite Hp. reflexivity.
  - unfold key_space. rewrite Hp. reflexivity.
Qed.


(** *** The replay in the loop of [main] *)

Lemma same_replay_state (ps : list Path) (d1 d2 : FourierDrawing) :
  same_replay d1 d2 ->
  (replay_state ps d2 -> replay_state ps d1)
  /\ replay_position d1 = replay_position d2
  /\ stored_paths d1 = stored_paths d2.
Proof.
  intros (H1 & H2 & H3 & H4 & H5).
  unfold replay_state, replaying, replay_done, animating_count,
    replay_position, stored_paths.
  rewrite H1, H2, H3, H4. auto.
Qed.

Lemma record_mouse_same_replay (s : MainState) (mouse : Z * Z) (now : flt) :
  same_replay (main_drawing (record_mouse s mouse now)) (main_drawing s)
  /\ running (record_mouse s mouse now) = running s
  /\ drawing_active (record_mouse s mouse now) = drawing_active s.
Proof.
  unfold record_mouse, same_replay.
  destruct (drawing_active s) eqn:E; [|rewrite E; auto 10].
  destruct (current_path (main_drawing s)); cbn; rewrite ?E; auto 10.
Qed.

Lemma frame_update_same_replay (d1 d2 : FourierDrawing) :
  same_replay d1 d2 ->
  match frame_update d1, frame_update d2 with
  | Some e1, Some e2 => same_replay e1 e2
  | None, None => True
  | _, _ => False
  end.
Proof.
  intros (H1 & H2 & H3 & H4 & H5). unfold frame_update.
  rewrite H1, H5.
  destruct (animate_paths (paths d2) (animation_speed d2)) as [qs|];
    [|exact I].
  unfold sequential_animation.
  cbn [animating_all paths set_paths_current completed_paths
       remaining_paths animation_speed].
  rewrite H2, H3, H4.
  destruct (animating_all d2) eqn:Ea;
    [|unfold same_replay; cbn; repeat split; congruence].
  destruct qs as [|c rest];
    [unfold same_replay; cbn; repeat split; congruence|].
  destruct (state c);
    try (unfold same_replay; cbn; repeat split; congruence).
  destruct (remaining_paths d2);
    unfold same_replay; cbn; repeat split; congruence.
Qed.

Lemma main_iteration_quiet (s : MainState) (mouse : Z * Z) (now : flt) :
  match main_iteration s [] mouse now, frame_update (main_drawing s) with
  | Some s', Some d' =>
      same_replay (main_drawing s') d'
      /\ running s' = running s /\ drawing_active s' = drawing_active s
  | None, None => True
  | _, _ => False
  end.
Proof.
  unfold main_iteration. cbn [fold_left].
  destruct (record_mouse_same_replay s mouse now) as (H & Hr & Ha).
  pose proof (frame_update_same_replay H) as H'.
  destruct (frame_update (main_drawing (record_mouse s mouse now)));
    destruct (frame_update (main_drawing s)); try contradiction; auto.
Qed.


(** Quiet iterations of [main] are the frames of [run_frames], up to the
    current path. *)
Lemma run_main_quiet_frames (samples : list ((Z * Z) * flt)) :
  forall s : MainState,
    running s = true ->
    match run_main s (quiet_inputs samples),
          run_frames (length samples) (main_drawing s) with
    | Some s', Some d' =>
        same_replay (main_drawing s') d' /\ running s' = true
    | None, None => True
    | _, _ => False
    end.
Proof.
  assert (Hsame : forall n d1 d2,
            same_replay d1 d2 ->
            match run_frames n d1, run_frames n d2 with
            | Some e1, Some e2 => same_replay e1 e2
            | None, None => True
            | _, _ => False
            end).
  { induction n as [|n IH]; intros d1 d2 H; cbn [run_frames]; [exact H|].
    pose proof (frame_update_same_replay H) as H'.
    destruct (frame_update d1); destruct (frame_update d2);
      try contradiction; [apply IH; exact H'|exact I]. }
  induction samples as [|[mouse now] samples IH]; intros s Hr.
  - cbn. split; [|exact Hr]. unfold same_replay. auto 10.
  - cbn [quiet_inputs map run_main length run_frames fst snd]. rewrite Hr.
    pose proof (main_iteration_quiet s mouse now) as H.
    destruct (main_iteration s [] mouse now) as [s1|];
      destruct (frame_update (main_drawing s)) as [d1|];
      try contradiction; [|exact I].
    destruct H as (H1 & H2 & _). rewrite Hr in H2.
    specialize (IH s1 H2). specialize (Hsame (length samples) _ _ H1).
    fold (quiet_inputs samples).
    destruct (run_main s1 (quiet_inputs samples)) as [s'|];
      destruct (run_frames (length samples) (main_drawing s1));
      destruct (run_frames (length samples) d1); try contradiction;
      trivial.
    destruct IH as [IH1 IH2]. split; [|exact IH2].
    destruct IH1 as (A1 & A2 & A3 & A4 & A5).
    destruct Hsame as (B1 & B2 & B3 & B4 & B5).
    unfold same_replay. repeat split; congruence.
Qed.

Lemma run_frames_replay_state (ps : list Path) (n : nat) :
  Forall replayable ps ->
  forall d : FourierDrawing,
    replay_state ps d ->
    exists d',
      run_frames n d = Some d'
      /\ animation_speed d' = animation_speed d
      /\ replay_state ps d'.
Proof.
  intros Hps. induction n as [|n IH]; intros d H.
  - exists d. auto.
  - destruct (frame_update_replay_state Hps H) as (d1 & E & Hs & H1 & _).
    destruct (IH d1 H1) as (d' & E' & Hs' & H').
    exists d'. cbn [run_frames]. rewrite E.
    split; [exact E'|]. split; [congruence|exact H'].
Qed.

Lemma run_main_replay_state (ps : list Path) (s : MainState)
    (samples : list ((Z * Z) * flt)) :
  running s = true ->
  Forall replayable ps ->
  replay_state ps (main_drawing s) ->
  exists s',
    run_main s (quiet_inputs samples) = Some s'
    /\ running s' = true
    /\ replay_state ps (main_drawing s').
Proof.
  intros Hr Hps H.
  destruct (run_frames_replay_state (length samples) Hps H)
    as (d' & E & _ & H').
  pose proof (run_main_quiet_frames samples s Hr) as Hq.
  rewrite E in Hq.
  destruct (run_main s (quiet_inputs samples)) as [s'|]; [|contradiction].
  destruct Hq as [Hq1 Hq2]. exists s'.
  split; [reflexivity|]. split; [exact Hq2|].
  apply (same_replay_state ps Hq1). exact H'.
Qed.



(** X5: while nothing is recorded (the button is up or there is no current
    path), no replay is running and no path of [paths] is animating, the
    iterations of [main] that receive no event leave its state as it is,
    however many there are. *)
Theorem idle_drawing_is_stable (s : MainState)
    (samples : list ((Z * Z) * flt)) :
  drawing_active s = false \/ current_path (main_drawing s) = None ->
  animating_all (main_drawing s) = false ->
  any_animating (paths (main_drawing s)) = false ->
  run_main s (quiet_inputs samples) = Some s.
Proof.
  intros Hidle Ha Hn.
  assert (Hrec : forall mouse now, record_mouse s mouse now = s).
  { intros mouse now. unfold record_mouse.
    destruct Hidle as [H|H]; rewrite H; [reflexivity|].
    destruct (drawing_active s); reflexivity. }
  assert (Hf : frame_update (main_drawing s) = Some (main_drawing s)).
  { pose proof (@run_frames_idle _ (main_drawing s) 1 Ha Hn) as E.
    cbn in E. destruct (frame_update (main_drawing s));
      [exact E|discriminate]. }
  induction samples as [|[mouse now] samples IH]; [reflexivity|].
  cbn [quiet_inputs map run_main fst snd].
  destruct (running s) eqn:Hr; [|reflexivity].
  unfold main_iteration. cbn [fold_left]. rewrite Hrec, Hf.
  replace (mkMainState (main_drawing s) (running s) (drawing_active s))
    with s by (destruct s; reflexivity).
  exact IH.
Qed.

(** X9: when replay-all (space) is pressed again at any iteration at which
    a replay of [k] complete paths is still running, the drawing, which
    held the [k] paths up to then, is left with one path: the one that was
    animating, restarted.  The paths already replayed and the paths still
    queued are no longer in [paths], [completed_paths] or
    [remaining_paths]. *)
Theorem second_replay_keeps_one_path (s : MainState)
    (samples : list ((Z * Z) * flt)) :
  running s = true ->
  paths (main_drawing s) <> [] ->
  Forall replayable (paths (main_drawing s)) ->
  exists s' : MainState,
    run_main (handle_event s (KEYDOWN K_SPACE)) (quiet_inputs samples)
    = Some s'
    /\ (animating_all (main_drawing s') = true ->
        let ps := paths (main_drawing s) in
        let d' := main_drawing s' in
        let d'' := main_drawing (handle_event s' (KEYDOWN K_SPACE)) in
        length (stored_paths d') = length ps
        /\ (replay_position d' < length ps)%nat
        /\ exists cur : Path,
             paths d' = [cur]
             /\ raw_points cur
                = raw_points (nth (replay_position d') ps new_Path)
             /\ epicycles cur
                = epicycles (nth (replay_position d') ps new_Path)
             /\ paths d'' = [restart cur]
             /\ completed_paths d'' = []
             /\ remaining_paths d'' = []
             /\ animating_all d'' = true).
Proof.
  intros Hr Hne Hps.
  destruct (@key_space_replay_state (main_drawing s) Hne Hps)
    as (H0 & _ & _).
  destruct (@run_main_replay_state (paths (main_drawing s))
              (handle_event s (KEYDOWN K_SPACE)) samples Hr Hps H0)
    as (s' & E & _ & H).
  exists s'. split; [exact E|]. intros Ha. cbv zeta.
  destruct H as [[H _]|(Ha' & _)]; [|congruence].
  destruct H as (_ & Hj & Hdone & (cur & Hp & Hs & Hraw & Heps) & Hrem).
  unfold replay_position. rewrite Ha.
  split; [|split; [exact Hj|]].
  - unfold stored_paths. rewrite !length_app, Hp, Hrem, length_skipn.
    rewrite <- (Forall2_length Hdone), length_firstn. cbn [length]. lia.
  - exists cur. split; [exact Hp|]. split; [exact Hraw|].
    split; [exact Heps|].
    cbn [handle_event main_drawing]. unfold key_space. rewrite Hp.
    cbn. repeat split.
Qed.

End ReplayInvariant.

Section ReplayChecks.

Context {A : Arith}.

Lemma all_replayable_check (l : list Path) :
  forallb (fun p => PathState_eqb (state p) complete
                    && negb (length (raw_points p) =? 0)%nat) l = true ->
  Forall replayable l.
Proof.
  induction l as [|p l IH]; cbn; intros H; constructor;
    apply andb_prop in H; destruct H as [H1 H2]; [|apply IH; exact H2].
  apply andb_prop in H1. destruct H1 as [H1 H3]. split.
  - destruct (state p); (reflexivity || discriminate).
  - intros E. rewrite E in H3. discriminate.
Qed.


End ReplayChecks.

(** ** binary64: the replay of all paths *)

Module Binary64Replay.

Import Binary64 Clock64 Binary64Clock Scenario Replays.
Local Open Scope float_scope.




Lemma idle_drawing_is_stable_witness :
  any_animating (paths (main_drawing three_on_canvas)) = false
  /\ @run_main A64 three_on_canvas (quiet_inputs (quiet 60))
     = Some three_on_canvas.
Proof.
  assert (H : any_animating (paths (main_drawing three_on_canvas)) = false)
    by (vm_compute; reflexivity).
  split; [exact H|].
  exact (@idle_drawing_is_stable A64 three_on_canvas (quiet 60)
           (or_introl eq_refl) eq_refl H).
Defined.

Lemma second_replay_keeps_one_path_witness :
  paths (main_drawing three_on_canvas) <> []
  /\ exists s' : @MainState A64,
       run_main (handle_event three_on_canvas (KEYDOWN K_SPACE))
         (quiet_inputs (quiet 9)) = Some s'
       /\ length (stored_paths (main_drawing s')) = 3%nat
       /\ replay_position (main_drawing s') = 2%nat
       /\ length
            (stored_paths
               (main_drawing (handle_event s' (KEYDOWN K_SPACE))))
          = 1%nat.
Proof.
  split; [discriminate|].
  destruct (@second_replay_keeps_one_path A64 three_on_canvas (quiet 9))
    as (s' & E & H).
  - reflexivity.
  - discriminate.
  - apply all_replayable_check. vm_compute. reflexivity.
  - assert (Hc : option_map
                   (fun x : @MainState A64 =>
                      (animating_all (main_drawing x),
                       replay_position (main_drawing x)))
                   (run_main (handle_event three_on_canvas (KEYDOWN K_SPACE))
                      (quiet_inputs (quiet 9)))
                 = Some (true, 2%nat)) by (vm_compute; reflexivity).
    rewrite E in Hc. cbn [option_map] in Hc.
    injection Hc as Ha Hpos.
    destruct (H Ha) as (H1 & _ & cur & _ & _ & _ & H5 & H6 & H7 & _).
    exists s'. split; [exact E|]. split; [exact H1|].
    split; [exact Hpos|].
    unfold stored_paths. rewrite H5, H6, H7. reflexivity.
Defined.

End Binary64Replay.
